(** * Artist aggregation and revenue estimation (files/artist_analyzer.py)

    A shallow embedding of [ArtistAnalyzer]: the revenue estimator, the tier
    classifier, the per-artist aggregation, the summary and the JSON save
    step, followed by the properties the specification states about them.

    Conventions of the embedding.
    - Python numbers (int and float) are exact rationals [Qc]; float
      rounding error is not modelled, [round(x, 2)] is exact rounding of
      [x] to a multiple of 1/100 (ties to even).
    - A raised Python exception is the [Raise] result; everything else is
      [Ok].
    - A pandas cell is a [pyval] where the code compares or converts it,
      an [option string] for the text columns ([None] is NaN). *)

From Stdlib Require Import Ascii QArith Qcanon Qround.
From stdpp Require Import base numbers list strings gmap sorting.

Local Open Scope Z_scope.

(** ** Python values and exceptions *)

Inductive exn := KeyError | TypeError | ValueError.

Inductive result (A : Type) :=
  | Ok (a : A)
  | Raise (e : exn).
Arguments Ok {A} a.
Arguments Raise {A} e.

Global Instance result_ret : MRet result := @Ok.
Global Instance result_bind : MBind result := λ A B f m,
  match m with Ok a => f a | Raise e => Raise e end.
Global Instance result_fmap : FMap result := λ A B f m,
  match m with Ok a => Ok (f a) | Raise e => Raise e end.

(** A cell of a row: float NaN (pandas' missing value), a number, a string,
    or a bool. *)
Inductive pyval :=
  | PNaN
  | PNum (q : Qc)
  | PStr (s : string)
  | PBool (b : bool).

(** [pd.isna] on a scalar. *)
Definition isna (v : pyval) : bool :=
  match v with PNaN => true | _ => false end.


(** [v == s] for a string literal [s]: only a string can equal a string. *)
Definition py_eq_str (v : pyval) (s : string) : bool :=
  match v with PStr t => String.eqb t s | _ => false end.

Definition Z_of_bool (b : bool) : Z := if b then 1 else 0.

(** ** String helpers: [str.strip], [str.split] and [int] of a string *)

Definition is_space (c : ascii) : bool :=
  let n := nat_of_ascii c in
  ((9 <=? n)%nat && (n <=? 13)%nat) || ((28 <=? n)%nat && (n <=? 32)%nat).

Fixpoint lstrip (s : string) : string :=
  match s with
  | EmptyString => EmptyString
  | String c s' => if is_space c then lstrip s' else s
  end.

Fixpoint rstrip (s : string) : string :=
  match s with
  | EmptyString => EmptyString
  | String c s' =>
      match rstrip s' with
      | EmptyString => if is_space c then EmptyString else String c EmptyString
      | t => String c t
      end
  end.

Definition strip (s : string) : string := rstrip (lstrip s).

(** [s.split(sep)] for a one-character separator; never the empty list. *)
Fixpoint split (sep : ascii) (s : string) : list string :=
  match s with
  | EmptyString => [EmptyString]
  | String c s' =>
      if Ascii.eqb c sep then EmptyString :: split sep s'
      else match split sep s' with
           | w :: ws => String c w :: ws
           | [] => [String c EmptyString]
           end
  end.

Definition digit_of (c : ascii) : option Z :=
  let n := nat_of_ascii c in
  if (48 <=? n)%nat && (n <=? 57)%nat then Some (Z.of_nat (n - 48)) else None.

(** Decimal digits with single underscores between digits. *)
Fixpoint digits (acc : Z) (after_digit : bool) (s : string) : option Z :=
  match s with
  | EmptyString => if after_digit then Some acc else None
  | String c s' =>
      match digit_of c with
      | Some d => digits (10 * acc + d) true s'
      | None =>
          if Ascii.eqb c "_" && after_digit then digits acc false s' else None
      end
  end.

(** [int(s)] for a string: surrounding whitespace, an optional sign, ASCII
    decimal digits. Anything else is a ValueError. *)
Definition int_of_str (s : string) : result Z :=
  let t := strip s in
  let parsed :=
    match t with
    | String "-" t' => Z.opp <$> digits 0 false t'
    | String "+" t' => digits 0 false t'
    | _ => digits 0 false t
    end in
  match parsed with Some z => Ok z | None => Raise ValueError end.

(** [int(v)]: truncation toward zero for a number. [int(nan)] is a
    ValueError. *)
Definition py_int (v : pyval) : result Z :=
  match v with
  | PNaN => Raise ValueError
  | PNum q => Ok (Z.quot (Qnum q) (Zpos (Qden q)))
  | PStr s => int_of_str s
  | PBool b => Ok (Z_of_bool b)
  end.

(** The number a value stands for in an order comparison with an int; a
    string there is a TypeError. NaN compares false with everything. *)
Definition py_le_int (lo : Z) (v : pyval) : result bool :=
  match v with
  | PNaN => Ok false
  | PNum q => Ok (Qle_bool (inject_Z lo) q)
  | PStr _ => Raise TypeError
  | PBool b => Ok (lo <=? Z_of_bool b)
  end.

Definition py_int_ge (hi : Z) (v : pyval) : result bool :=
  match v with
  | PNaN => Ok false
  | PNum q => Ok (Qle_bool q (inject_Z hi))
  | PStr _ => Raise TypeError
  | PBool b => Ok (Z_of_bool b <=? hi)
  end.

(** ** Revenue estimator *)

Inductive tier := hit | good | mid | bust | unknown.

Global Instance tier_eq_dec : EqDecision tier.
Proof. solve_decision. Defined.

(** [self.tier_definitions], in insertion order. *)
Definition tier_definitions : list (tier * (Z * Z)) :=
  [ (hit, (80, 100)); (good, (65, 79)); (mid, (35, 64)); (bust, (0, 34)) ].

(** [_create_revenue_benchmarks]. *)
Definition revenue_benchmarks : gmap Z Z :=
  list_to_map
    [ (0, 500); (10, 5000); (20, 12000); (30, 30000); (40, 75000);
      (50, 150000); (60, 350000); (70, 800000); (80, 2000000);
      (90, 15000000); (100, 30000000) ].

(** [self.revenue_benchmarks[k]]. *)
Definition benchmark_at (k : Z) : result Z :=
  match revenue_benchmarks !! k with
  | Some v => Ok v
  | None => Raise KeyError
  end.

(** [estimate_song_revenue]. *)
Definition estimate_song_revenue (popularity : pyval) : result Qc :=
  if isna popularity then Ok 0%Qc
  else
    popularity ← py_int popularity;
    let lower_bound := (popularity / 10) * 10 in
    let upper_bound := Z.min (lower_bound + 10) 100 in
    if bool_decide (lower_bound = upper_bound) then
      Qc_of_Z <$> benchmark_at lower_bound
    else
      lower_revenue ← benchmark_at lower_bound;
      upper_revenue ← benchmark_at upper_bound;
      let fraction := (Qc_of_Z (popularity - lower_bound) / Qc_of_Z 10)%Qc in
      Ok (Qc_of_Z lower_revenue
          + (Qc_of_Z upper_revenue - Qc_of_Z lower_revenue) * fraction)%Qc.

(** The loop of [classify_song] over the tier table. *)
Fixpoint classify_in (defs : list (tier * (Z * Z))) (popularity : pyval)
  : result tier :=
  match defs with
  | [] => Ok unknown
  | (t, (min_pop, max_pop)) :: defs' =>
      lo ← py_le_int min_pop popularity;
      if (lo : bool) then
        hi ← py_int_ge max_pop popularity;
        if (hi : bool) then Ok t else classify_in defs' popularity
      else classify_in defs' popularity
  end.

(** [classify_song]. *)
Definition classify_song (popularity : pyval) : result tier :=
  if isna popularity then Ok unknown
  else classify_in tier_definitions popularity.

(** [parse_artists]: the artist cell is text or NaN. *)
Definition parse_artists (artist_string : option string) : list string :=
  match artist_string with
  | None => []
  | Some s =>
      let artists := strip <$> split "," s in
      filter (λ a, a ≠ EmptyString) artists
  end.


(** ** Rows and accumulators *)

Inductive feature :=
  | energy | danceability | positiveness | speechiness
  | liveness | acousticness | instrumentalness.

Global Instance feature_eq_dec : EqDecision feature.
Proof. solve_decision. Defined.

(** The keys of [data['audio_features']], in insertion order. *)
Definition feature_keys : list feature :=
  [ energy; danceability; positiveness; speechiness;
    liveness; acousticness; instrumentalness ].

(** The release-date cell: NaN, or a text together with what
    [pd.to_datetime] makes of it, a timestamp in nanoseconds since the
    epoch or a failure. [pd.to_datetime] is pandas' own, so its reading of
    the text comes with the input. *)
Inductive date_cell :=
  | DNaN
  | DText (s : string) (parsed : option Z).

(** One row of [self.df]. [r_audio f] is [None] when the column of [f] is
    not in the row or its cell is NaN: the guard of the feature loop skips
    both. *)
Record row := {
  r_song : option string;
  r_artists : option string;
  r_popularity : pyval;
  r_genre : option string;
  r_explicit : pyval;
  r_release_date : date_cell;
  r_audio : feature → option Qc
}.

(** An entry of [data['songs']]. *)
Record song_entry := {
  sd_title : option string;
  sd_popularity : pyval;
  sd_tier : tier;
  sd_revenue : Qc;
  sd_release_date : date_cell
}.

(** The value of the [artist_data] defaultdict. [genres] is a dict whose
    insertion order decides the primary genre, so it is kept as an
    association list. *)
Module Acc.
Record t := {
  songs : list song_entry;
  total_songs : nat;
  hit_songs : nat;
  good_songs : nat;
  mid_songs : nat;
  bust_songs : nat;
  total_revenue : Qc;
  genres : list (string * nat);
  explicit_count : nat;
  release_dates : list Z;
  audio_features : list (feature * list Qc)
}.
End Acc.

(** The default factory of [artist_data]. *)
Definition new_acc : Acc.t := {|
  Acc.songs := [];
  Acc.total_songs := 0;
  Acc.hit_songs := 0;
  Acc.good_songs := 0;
  Acc.mid_songs := 0;
  Acc.bust_songs := 0;
  Acc.total_revenue := 0%Qc;
  Acc.genres := [];
  Acc.explicit_count := 0;
  Acc.release_dates := [];
  Acc.audio_features := (λ f, (f, [])) <$> feature_keys
|}.

(** [genres[g] += 1] on a [defaultdict(int)]. *)
Fixpoint incr_genre (g : string) (genres : list (string * nat))
  : list (string * nat) :=
  match genres with
  | [] => [(g, 1%nat)]
  | (g', n) :: rest =>
      if decide (g' = g) then (g', S n) :: rest
      else (g', n) :: incr_genre g rest
  end.

(** [parse_release_date]. *)
Definition parse_release_date (date_string : date_cell) : option Z :=
  match date_string with
  | DNaN => None
  | DText _ parsed => parsed
  end.

Definition bump (cond : bool) (n : nat) : nat := if cond then S n else n.

(** The body of the per-artist loop, on [data = artist_data[artist]]. *)
Definition update_artist (r : row) (tier : tier) (revenue : Qc)
    (data : Acc.t) : Acc.t := {|
  Acc.total_songs := S (Acc.total_songs data);
  Acc.songs := Acc.songs data ++
    [ {| sd_title := r_song r;
         sd_popularity := r_popularity r;
         sd_tier := tier;
         sd_revenue := revenue;
         sd_release_date := r_release_date r |} ];
  Acc.hit_songs := bump (bool_decide (tier = hit)) (Acc.hit_songs data);
  Acc.good_songs := bump (bool_decide (tier = good)) (Acc.good_songs data);
  Acc.mid_songs := bump (bool_decide (tier = mid)) (Acc.mid_songs data);
  Acc.bust_songs := bump (bool_decide (tier = bust)) (Acc.bust_songs data);
  Acc.total_revenue := (Acc.total_revenue data + revenue)%Qc;
  Acc.genres :=
    match r_genre r with
    | Some g => incr_genre g (Acc.genres data)
    | None => Acc.genres data
    end;
  Acc.explicit_count :=
    bump (py_eq_str (r_explicit r) "Yes") (Acc.explicit_count data);
  Acc.release_dates :=
    match parse_release_date (r_release_date r) with
    | Some release_date => Acc.release_dates data ++ [release_date]
    | None => Acc.release_dates data
    end;
  Acc.audio_features :=
    (λ '(f, values),
       (f, match r_audio r f with
           | Some v => values ++ [v]
           | None => values
           end)) <$> Acc.audio_features data
|}.

(** [data = artist_data[artist]] followed by the loop body: the defaultdict
    creates the entry on first reference. *)
Definition credit (r : row) (tier : tier) (revenue : Qc)
    (artist_data : gmap string Acc.t) (artist : string)
  : gmap string Acc.t :=
  <[artist := update_artist r tier revenue
                (default new_acc (artist_data !! artist))]> artist_data.

(** One iteration of the loop over the rows: tier and revenue are computed
    before the loop over the credited artists. *)
Definition process_row (artist_data : gmap string Acc.t) (r : row)
  : result (gmap string Acc.t) :=
  let artists := parse_artists (r_artists r) in
  let popularity := r_popularity r in
  tier ← classify_song popularity;
  revenue ← estimate_song_revenue popularity;
  Ok (foldl (credit r tier revenue) artist_data artists).

(** The loop over [self.df.iterrows()]. *)
Fixpoint accumulate (artist_data : gmap string Acc.t) (rows : list row)
  : result (gmap string Acc.t) :=
  match rows with
  | [] => Ok artist_data
  | r :: rows' =>
      artist_data' ← process_row artist_data r;
      accumulate artist_data' rows'
  end.

(** ** Derived metrics *)

Definition Qc_of_nat (n : nat) : Qc := Qc_of_Z (Z.of_nat n).

(** [round(x)] to an integer, ties to even. *)
Definition round_half_even (q : Qc) : Z :=
  let f := Qfloor q in
  let r := (q - Qc_of_Z f)%Qc in
  let half := (1 / 2)%Qc in
  if bool_decide (r < half)%Qc then f
  else if bool_decide (half < r)%Qc then f + 1
  else if Z.even f then f else f + 1.

(** [round(x, 2)]. *)
Definition round2 (x : Qc) : Qc :=
  (Qc_of_Z (round_half_even (x * Qc_of_Z 100)) / Qc_of_Z 100)%Qc.

(** The builtin [sum], a left fold from 0. *)
Definition py_sum (l : list Qc) : Qc := foldl Qcplus 0%Qc l.

Definition nat_sum (l : list nat) : nat := foldl Nat.add 0%nat l.

(** [np.mean] of a non-empty list. *)
Definition mean (values : list Qc) : Qc :=
  (py_sum values / Qc_of_nat (length values))%Qc.

(** [np.mean(values) if values else 0]. *)
Definition average (values : list Qc) : Qc :=
  match values with [] => 0%Qc | _ => mean values end.

(** [count / total * 100 if total > 0 else 0]. *)
Definition percentage (count total : nat) : Qc :=
  if bool_decide (0 < total)%nat
  then (Qc_of_nat count / Qc_of_nat total * Qc_of_Z 100)%Qc
  else 0%Qc.

(** The builtins [min] and [max] on a list of timestamps. *)
Definition py_min (l : list Z) : option Z :=
  match l with [] => None | x :: l' => Some (foldl Z.min x l') end.

Definition py_max (l : list Z) : option Z :=
  match l with [] => None | x :: l' => Some (foldl Z.max x l') end.

(** [max(genres.items(), key=lambda x: x[1])]: the first entry with the
    largest count. *)
Fixpoint first_max (best : string * nat) (l : list (string * nat))
  : string * nat :=
  match l with
  | [] => best
  | x :: l' => first_max (if (best.2 <? x.2)%nat then x else best) l'
  end.

Definition primary_genre_of (genres : list (string * nat)) : option string :=
  match genres with
  | [] => None
  | x :: l => Some (first_max x l).1
  end.

Definition ns_per_day : Z := 86400 * 1000000000.

(** [Timestamp.date()] as a day number, and [Timedelta.days]. *)
Definition date_of (ts : Z) : Z := ts / ns_per_day.
Definition days_between (first last : Z) : Z := (last - first) / ns_per_day.

(** The value of [final_data]. The dates are day numbers; their rendering
    as text is not modelled. *)
Module Profile.
Record t := {
  total_songs : nat;
  hit_songs : nat;
  good_songs : nat;
  mid_songs : nat;
  bust_songs : nat;
  hit_rate : Qc;
  good_rate : Qc;
  mid_rate : Qc;
  bust_rate : Qc;
  estimated_total_revenue : Qc;
  avg_revenue_per_song : Qc;
  primary_genre : option string;
  genre_distribution : list (string * nat);
  explicit_ratio : Qc;
  first_release : option Z;
  last_release : option Z;
  career_span_years : Qc;
  avg_features : list (feature * Qc);
  songs : list song_entry
}.
End Profile.

(** The body of the loop that fills [final_data]. *)
Definition finalize (data : Acc.t) : Profile.t :=
  let total := Acc.total_songs data in
  let hit_rate := percentage (Acc.hit_songs data) total in
  let good_rate := percentage (Acc.good_songs data) total in
  let mid_rate := percentage (Acc.mid_songs data) total in
  let bust_rate := percentage (Acc.bust_songs data) total in
  let avg_revenue :=
    if bool_decide (0 < total)%nat
    then (Acc.total_revenue data / Qc_of_nat total)%Qc else 0%Qc in
  let explicit_ratio := percentage (Acc.explicit_count data) total in
  let primary_genre := primary_genre_of (Acc.genres data) in
  let avg_features :=
    (λ '(f, values), (f, average values)) <$> Acc.audio_features data in
  let first_release := py_min (Acc.release_dates data) in
  let last_release := py_max (Acc.release_dates data) in
  let career_span_years :=
    match first_release, last_release with
    | Some first, Some last =>
        (Qc_of_Z (days_between first last)
         / (Qc_of_Z 36525 / Qc_of_Z 100))%Qc
    | _, _ => 0%Qc
    end in
  {| Profile.total_songs := total;
     Profile.hit_songs := Acc.hit_songs data;
     Profile.good_songs := Acc.good_songs data;
     Profile.mid_songs := Acc.mid_songs data;
     Profile.bust_songs := Acc.bust_songs data;
     Profile.hit_rate := round2 hit_rate;
     Profile.good_rate := round2 good_rate;
     Profile.mid_rate := round2 mid_rate;
     Profile.bust_rate := round2 bust_rate;
     Profile.estimated_total_revenue := round2 (Acc.total_revenue data);
     Profile.avg_revenue_per_song := round2 avg_revenue;
     Profile.primary_genre := primary_genre;
     Profile.genre_distribution := Acc.genres data;
     Profile.explicit_ratio := round2 explicit_ratio;
     Profile.first_release := date_of <$> first_release;
     Profile.last_release := date_of <$> last_release;
     Profile.career_span_years := round2 career_span_years;
     Profile.avg_features := (λ '(f, v), (f, round2 v)) <$> avg_features;
     Profile.songs := Acc.songs data |}.

(** [analyze_artists]. *)
Definition analyze_artists (rows : list row)
  : result (gmap string Profile.t) :=
  match accumulate ∅ rows with
  | Ok artist_data => Ok (finalize <$> artist_data)
  | Raise e => Raise e
  end.

(** ** Summary *)

Module Summary.
Record t := {
  total_artists : nat;
  total_songs : nat;
  total_estimated_revenue : Qc;
  avg_songs_per_artist : Qc;
  avg_revenue_per_artist : Qc;
  avg_hit_rate : Qc;
  median_hit_rate : Qc
}.
End Summary.

(** [np.median] of a non-empty list. *)
Definition median (values : list Qc) : Qc :=
  let sorted := merge_sort Qcle values in
  let n := length sorted in
  if Nat.even n
  then ((default 0%Qc (sorted !! (n / 2 - 1)%nat)
         + default 0%Qc (sorted !! (n / 2)%nat)) / Qc_of_Z 2)%Qc
  else default 0%Qc (sorted !! (n / 2)%nat).

(** [artist_data.values()]. *)
Definition values (artist_data : gmap string Profile.t) : list Profile.t :=
  snd <$> map_to_list artist_data.

(** [get_summary_stats]. The argument is a dict passed by reference: the
    first component of the result is that dict after the call. *)
Definition get_summary_stats (artist_data : gmap string Profile.t)
  : gmap string Profile.t * Summary.t :=
  let total_artists := size artist_data in
  let total_songs := nat_sum (Profile.total_songs <$> values artist_data) in
  let total_revenue :=
    py_sum (Profile.estimated_total_revenue <$> values artist_data) in
  let avg_songs_per_artist :=
    if bool_decide (0 < total_artists)%nat
    then (Qc_of_nat total_songs / Qc_of_nat total_artists)%Qc else 0%Qc in
  let avg_revenue_per_artist :=
    if bool_decide (0 < total_artists)%nat
    then (total_revenue / Qc_of_nat total_artists)%Qc else 0%Qc in
  let hit_rates := Profile.hit_rate <$> values artist_data in
  (artist_data,
   {| Summary.total_artists := total_artists;
      Summary.total_songs := total_songs;
      Summary.total_estimated_revenue := round2 total_revenue;
      Summary.avg_songs_per_artist := round2 avg_songs_per_artist;
      Summary.avg_revenue_per_artist := round2 avg_revenue_per_artist;
      Summary.avg_hit_rate :=
        match hit_rates with [] => 0%Qc | _ => round2 (mean hit_rates) end;
      Summary.median_hit_rate :=
        match hit_rates with [] => 0%Qc | _ => round2 (median hit_rates) end
   |}).

(** ** Saving the results as JSON *)

(** The Python object handed to [json.dump]: [ONaN] is the float NaN,
    [ODate d] the text [str(date)] of day number [d]. *)
#[warnings="-register-all"]
Inductive pyobj :=
  | ONone
  | ONaN
  | OBool (b : bool)
  | ONum (q : Qc)
  | OStr (s : string)
  | ODate (d : Z)
  | OList (l : list pyobj)
  | ODict (l : list (string * pyobj)).

(** The tokens of the text [json.dump] writes; white space is left out. *)
Inductive token :=
  | TNull | TNaN | TTrue | TFalse
  | TNumber (q : Qc)
  | TString (s : string)
  | TDate (d : Z)
  | TBeginObject | TEndObject | TBeginArray | TEndArray
  | TColon | TComma.

(** [json.dump] with its default [allow_nan=True]: a float NaN is written
    as the token NaN. *)
Fixpoint dumps (o : pyobj) : list token :=
  match o with
  | ONone => [TNull]
  | ONaN => [TNaN]
  | OBool b => [if b then TTrue else TFalse]
  | ONum q => [TNumber q]
  | OStr s => [TString s]
  | ODate d => [TDate d]
  | OList l =>
      TBeginArray ::
      (fix items (l : list pyobj) : list token :=
         match l with
         | [] => []
         | x :: l' =>
             dumps x ++ match l' with [] => [] | _ => TComma :: items l' end
         end) l ++ [TEndArray]
  | ODict l =>
      TBeginObject ::
      (fix members (l : list (string * pyobj)) : list token :=
         match l with
         | [] => []
         | (k, x) :: l' =>
             TString k :: TColon :: dumps x
             ++ match l' with [] => [] | _ => TComma :: members l' end
         end) l ++ [TEndObject]
  end.

Definition obj_of_pyval (v : pyval) : pyobj :=
  match v with
  | PNaN => ONaN
  | PNum q => ONum q
  | PStr s => OStr s
  | PBool b => OBool b
  end.

Definition obj_of_text (v : option string) : pyobj :=
  match v with Some s => OStr s | None => ONaN end.

Definition obj_of_date_cell (v : date_cell) : pyobj :=
  match v with DNaN => ONaN | DText s _ => OStr s end.

Definition obj_of_nat (n : nat) : pyobj := ONum (Qc_of_nat n).

Definition tier_name (t : tier) : string :=
  match t with
  | hit => "hit" | good => "good" | mid => "mid" | bust => "bust"
  | unknown => "unknown"
  end.

Definition feature_name (f : feature) : string :=
  match f with
  | energy => "energy" | danceability => "danceability"
  | positiveness => "positiveness" | speechiness => "speechiness"
  | liveness => "liveness" | acousticness => "acousticness"
  | instrumentalness => "instrumentalness"
  end.

Definition obj_of_song (s : song_entry) : pyobj :=
  ODict [ ("title", obj_of_text (sd_title s));
          ("popularity", obj_of_pyval (sd_popularity s));
          ("tier", OStr (tier_name (sd_tier s)));
          ("revenue", ONum (sd_revenue s));
          ("release_date", obj_of_date_cell (sd_release_date s)) ]%string.

Definition obj_of_opt_date (d : option Z) : pyobj :=
  match d with Some d => ODate d | None => ONone end.

Definition obj_of_profile (p : Profile.t) : pyobj :=
  ODict
    ([ ("total_songs", obj_of_nat (Profile.total_songs p));
       ("hit_songs", obj_of_nat (Profile.hit_songs p));
       ("good_songs", obj_of_nat (Profile.good_songs p));
       ("mid_songs", obj_of_nat (Profile.mid_songs p));
       ("bust_songs", obj_of_nat (Profile.bust_songs p));
       ("hit_rate", ONum (Profile.hit_rate p));
       ("good_rate", ONum (Profile.good_rate p));
       ("mid_rate", ONum (Profile.mid_rate p));
       ("bust_rate", ONum (Profile.bust_rate p));
       ("estimated_total_revenue", ONum (Profile.estimated_total_revenue p));
       ("avg_revenue_per_song", ONum (Profile.avg_revenue_per_song p));
       ("primary_genre",
        match Profile.primary_genre p with
        | Some g => OStr g
        | None => ONone
        end);
       ("genre_distribution",
        ODict ((λ '(g, n), (g, obj_of_nat n))
               <$> Profile.genre_distribution p));
       ("explicit_ratio", ONum (Profile.explicit_ratio p));
       ("first_release", obj_of_opt_date (Profile.first_release p));
       ("last_release", obj_of_opt_date (Profile.last_release p));
       ("career_span_years", ONum (Profile.career_span_years p)) ]%string
     ++ ((λ '(f, v), (("avg_" +:+ feature_name f)%string, ONum v))
         <$> Profile.avg_features p)
     ++ [ ("songs"%string, OList (obj_of_song <$> Profile.songs p)) ]).

Definition obj_of_summary (s : Summary.t) : pyobj :=
  ODict [ ("total_artists", obj_of_nat (Summary.total_artists s));
          ("total_songs", obj_of_nat (Summary.total_songs s));
          ("total_estimated_revenue",
           ONum (Summary.total_estimated_revenue s));
          ("avg_songs_per_artist", ONum (Summary.avg_songs_per_artist s));
          ("avg_revenue_per_artist", ONum (Summary.avg_revenue_per_artist s));
          ("avg_hit_rate", ONum (Summary.avg_hit_rate s));
          ("median_hit_rate", ONum (Summary.median_hit_rate s)) ]%string.

(** [save_results]: the tokens written to [output_path]. The members of
    ["artists"] come in the order of [map_to_list], not in the insertion
    order of the Python dict. *)
Definition save_results (artist_data : gmap string Profile.t) : list token :=
  let '(artist_data, summary) := get_summary_stats artist_data in
  let output :=
    ODict [ ("summary"%string, obj_of_summary summary);
            ("artists"%string,
             ODict (prod_map id obj_of_profile <$> map_to_list artist_data)) ]
  in
  dumps output.

Definition is_nan_token (t : token) : bool :=
  match t with TNaN => true | _ => false end.

(** ** The specification's reference for the estimator *)

(** A Python int as a cell value. *)
Definition PInt (z : Z) : pyval := PNum (Qc_of_Z z).

(** The benchmark table as a total function. *)
Definition benchmark (k : Z) : Z := default 0 (revenue_benchmarks !! k).

(** The specification's piecewise-linear reference:
    [benchmark[lower] + (benchmark[upper] - benchmark[lower]) * (p - lower)/10]
    with [lower = floor(p/10)*10] and [upper = min(lower+10, 100)]. *)
Definition reference_revenue (p : Z) : Qc :=
  let lower := (p / 10) * 10 in
  let upper := Z.min (lower + 10) 100 in
  (Qc_of_Z (benchmark lower)
   + (Qc_of_Z (benchmark upper) - Qc_of_Z (benchmark lower))
     * (Qc_of_Z (p - lower) / Qc_of_Z 10))%Qc.

(** ** The aggregation, artist by artist *)

(** Tier and revenue of a row, where [classify_song] and
    [estimate_song_revenue] return. *)
Definition tier_of (r : row) : tier :=
  match classify_song (r_popularity r) with Ok t => t | Raise _ => unknown end.

Definition revenue_of (r : row) : Qc :=
  match estimate_song_revenue (r_popularity r) with
  | Ok x => x
  | Raise _ => 0%Qc
  end.

(** Both computations of the loop head return. *)
Definition scores (r : row) : Prop :=
  (∃ t, classify_song (r_popularity r) = Ok t) ∧
  (∃ x, estimate_song_revenue (r_popularity r) = Ok x).

(** How many times a name occurs among the credited names. *)
Definition credits (artist : string) (names : list string) : nat :=
  length (filter (λ a, a = artist) names).

(** One credit of row [r] on an accumulator. *)
Definition absorb (data : Acc.t) (r : row) : Acc.t :=
  update_artist r (tier_of r) (revenue_of r) data.

(** The entry of an artist after the rows [es] have each credited it
    once. *)
Definition rollup (o : option Acc.t) (es : list row) : option Acc.t :=
  match es with
  | [] => o
  | _ => Some (foldl absorb (default new_acc o) es)
  end.

(** The credits of an artist in a row, and in a list of rows. *)
Definition row_credits (artist : string) (r : row) : list row :=
  replicate (credits artist (parse_artists (r_artists r))) r.

Definition entries (artist : string) (rows : list row) : list row :=
  rows ≫= row_credits artist.

(** Exact sum, from the right. *)
Definition qsum (l : list Qc) : Qc := foldr Qcplus 0%Qc l.

(** The number of rows that satisfy a test. *)
Definition count (P : row → bool) (es : list row) : nat :=
  length (filter (λ r, P r = true) es).

Definition is_tier (t : tier) (r : row) : bool := bool_decide (tier_of r = t).
Definition is_explicit (r : row) : bool := py_eq_str (r_explicit r) "Yes".

(** [x] is a whole number of hundredths. *)
Definition hundredths (x : Qc) : Prop :=
  ∃ z : Z, x = (Qc_of_Z z / Qc_of_Z 100)%Qc.

(** ** Order-independent values of a profile *)

(** The fields of a profile that the specification states to be
    independent of the input order: all of them except [primary_genre],
    the insertion order of [genre_distribution] and the retained song
    list. *)
Module Stable.
Record t := {
  total_songs : nat;
  hit_songs : nat;
  good_songs : nat;
  mid_songs : nat;
  bust_songs : nat;
  hit_rate : Qc;
  good_rate : Qc;
  mid_rate : Qc;
  bust_rate : Qc;
  estimated_total_revenue : Qc;
  avg_revenue_per_song : Qc;
  explicit_ratio : Qc;
  first_release : option Z;
  last_release : option Z;
  career_span_years : Qc;
  avg_features : list (feature * Qc)
}.
End Stable.



(** ** Sample songs *)

(** A song that credits the same name twice. *)
Definition song_credited_twice : row := {|
  r_song := Some "X"%string;
  r_artists := Some "A, A"%string;
  r_popularity := PInt 85;
  r_genre := Some "pop"%string;
  r_explicit := PStr "No";
  r_release_date := DNaN;
  r_audio := λ _, None
|}.

(** A song whose popularity cell holds text that is not a number. *)
Definition song_unparseable_popularity : row := {|
  r_song := Some "X"%string;
  r_artists := Some "A"%string;
  r_popularity := PStr "abc";
  r_genre := None;
  r_explicit := PStr "No";
  r_release_date := DNaN;
  r_audio := λ _, None
|}.



(** A song with a title, one artist and no popularity. *)
Definition song_missing_popularity : row := {|
  r_song := Some "X"%string;
  r_artists := Some "A"%string;
  r_popularity := PNaN;
  r_genre := Some "pop"%string;
  r_explicit := PStr "No";
  r_release_date := DText "2020-01-01" (Some 1577836800000000000);
  r_audio := λ _, None
|}.

(** Two songs of one artist in different genres. *)
Definition song_pop : row := {|
  r_song := Some "P"%string;
  r_artists := Some "A"%string;
  r_popularity := PInt 50;
  r_genre := Some "pop"%string;
  r_explicit := PStr "Yes";
  r_release_date := DText "2019-05-01" (Some 1556668800000000000);
  r_audio := λ f,
    match f with energy => Some (Qc_of_Z 4 / Qc_of_Z 5)%Qc | _ => None end
|}.

Definition song_rock : row := {|
  r_song := Some "R"%string;
  r_artists := Some "A, B"%string;
  r_popularity := PInt 82;
  r_genre := Some "rock"%string;
  r_explicit := PStr "No";
  r_release_date := DText "2021-03-01" (Some 1614556800000000000);
  r_audio := λ f,
    match f with energy => Some (Qc_of_Z 1 / Qc_of_Z 2)%Qc | _ => None end
|}.

(** * Further definitions *)

(** ** Characters of a string *)

(** Whether a character occurs in a string. *)
Fixpoint has_char (c : ascii) (s : string) : bool :=
  match s with
  | EmptyString => false
  | String c' s' => Ascii.eqb c' c || has_char c s'
  end.

(** The string does not begin with white space. *)
Definition starts_clean (s : string) : Prop :=
  match s with
  | EmptyString => True
  | String c _ => is_space c = false
  end.

(** The string does not end with white space. *)
Fixpoint ends_clean (s : string) : Prop :=
  match s with
  | EmptyString => True
  | String c EmptyString => is_space c = false
  | String _ s' => ends_clean s'
  end.

(** ** Popularity cells the aggregation accepts *)

(** The popularity cells for which the head of the row loop returns: NaN, a
    bool, or a number whose integer part is between 0 and 109. *)
Definition accepted (v : pyval) : Prop :=
  match v with
  | PNaN => True
  | PNum q => 0 ≤ Z.quot (Qnum q) (Zpos (Qden q)) ≤ 109
  | PStr _ => False
  | PBool _ => True
  end.

(** The exception a popularity cell that is not accepted raises. *)
Definition rejection (v : pyval) : exn :=
  match v with PStr _ => TypeError | _ => KeyError end.

(** ** The retained song entry of a row *)

(** The entry the per-artist loop appends to [data['songs']] for a row. *)
Definition entry_of (r : row) : song_entry := {|
  sd_title := r_song r;
  sd_popularity := r_popularity r;
  sd_tier := tier_of r;
  sd_revenue := revenue_of r;
  sd_release_date := r_release_date r
|}.

(** The number of retained songs of a tier. *)
Definition songs_of_tier (t : tier) (songs : list song_entry) : nat :=
  length (filter (λ s, sd_tier s = t) songs).

(** ** Reading a genre distribution *)

(** The count stored for a genre, if any. *)
Fixpoint genre_lookup (g : string) (genres : list (string * nat))
  : option nat :=
  match genres with
  | [] => None
  | (g', n) :: rest => if decide (g' = g) then Some n else genre_lookup g rest
  end.

(** The genre step of the per-artist loop. *)
Definition genre_step (genres : list (string * nat)) (r : row)
  : list (string * nat) :=
  match r_genre r with
  | Some g => incr_genre g genres
  | None => genres
  end.

(** How many of the rows have genre [g]. *)
Definition genre_count (g : string) (es : list row) : nat :=
  length (filter (λ r, r_genre r = Some g) es).

(** ** Totals over an accumulator mapping *)

(** The sum of [total_songs] over all accumulators. *)
Definition credited_total (m : gmap string Acc.t) : nat :=
  sum_list (Acc.total_songs <$> (snd <$> map_to_list m)).

(** All the names the rows credit, with repetitions. *)
Definition all_credits (rows : list row) : list string :=
  rows ≫= (λ r, parse_artists (r_artists r)).

(** ** NaN in an object handed to [json.dump] *)



(** ** The rankings of [print_top_artists] *)

(** Insertion into a list ordered by decreasing key, before the first
    element whose key is not larger. *)
Fixpoint insert_desc {A} (key : A → Qc) (x : A) (l : list A) : list A :=
  match l with
  | [] => [x]
  | y :: l' =>
      if bool_decide (key y ≤ key x)%Qc then x :: y :: l'
      else y :: insert_desc key x l'
  end.

(** [sorted(l, key=key, reverse=True)]: largest key first, elements with
    equal keys in their original order. *)
Definition sorted_desc {A} (key : A → Qc) (l : list A) : list A :=
  foldr (insert_desc key) [] l.

(** The rows of the three tables [print_top_artists] prints: the text of a
    row is a rendering of the artist's name and profile, which is not
    modelled. *)
Record rankings := {
  by_revenue : list (string * Profile.t);
  by_hit_rate : list (string * Profile.t);
  by_songs : list (string * Profile.t)
}.

(** [print_top_artists], for a count [n] that is not negative. The items of
    [artist_data] are taken in the order of [map_to_list]. *)
Definition print_top_artists (artist_data : gmap string Profile.t) (n : nat)
  : rankings :=
  let items := map_to_list artist_data in
  let sorted_by_revenue :=
    take n (sorted_desc (λ x, Profile.estimated_total_revenue x.2) items) in
  let eligible :=
    filter (λ x, (5 ≤ Profile.total_songs x.2)%nat) items in
  let sorted_by_hit_rate :=
    take n (sorted_desc (λ x, Profile.hit_rate x.2) eligible) in
  let sorted_by_songs :=
    take n (sorted_desc (λ x, Qc_of_nat (Profile.total_songs x.2)) items) in
  {| by_revenue := sorted_by_revenue;
     by_hit_rate := sorted_by_hit_rate;
     by_songs := sorted_by_songs |}.

(** A list is the top [n] of [items] by [key]: at most [n] of the items,
    none twice, largest key first, and no item left out has a larger key
    than a listed one. *)
Definition top_of {A} (key : A → Qc) (n : nat) (items top : list A) : Prop :=
  (length top ≤ n)%nat ∧
  length top = Nat.min n (length items) ∧
  top ⊆+ items ∧
  StronglySorted (λ x y, key y ≤ key x)%Qc top ∧
  ∃ rest, items ≡ₚ top ++ rest ∧
          ∀ x y, x ∈ top → y ∈ rest → (key y ≤ key x)%Qc.

(** ** Replacing NaN in a saved file (fix_json.py) *)

(** The file is read as a text of one-byte characters; [\s] is the white
    space of [is_space]. The messages the script prints, with its count of
    [': NaN'], are not part of the model. *)

Definition newline : ascii := ascii_of_nat 10.

(** The text left after a literal at the start of a text. *)
Fixpoint strip_prefix (p s : string) : option string :=
  match p with
  | EmptyString => Some s
  | String a p' =>
      match s with
      | EmptyString => None
      | String b s' => if Ascii.eqb a b then strip_prefix p' s' else None
      end
  end.

(** A match of [\s*([,\n\}])] at the start of a text: the character of the
    group and the number of characters of the match. [\s*] is greedy, so a
    longer run of white space is tried first; a newline of the run is the
    group only when nothing longer matches. *)
Fixpoint match_tail (s : string) : option (ascii * nat) :=
  match s with
  | EmptyString => None
  | String c s' =>
      if is_space c then
        match match_tail s' with
        | Some (g, k) => Some (g, S k)
        | None => if Ascii.eqb c newline then Some (c, 1%nat) else None
        end
      else if Ascii.eqb c "," || Ascii.eqb c "}" then Some (c, 1%nat)
      else None
  end.

(** A match of [\s*NaN\s*([,\n\}])] at the start of a text, the text after
    a colon: the character of the group and the number of characters of
    the match. *)
Fixpoint match_nan (s : string) : option (ascii * nat) :=
  match s with
  | EmptyString => None
  | String c s' =>
      if is_space c then
        match match_nan s' with
        | Some (g, k) => Some (g, S k)
        | None => None
        end
      else
        match strip_prefix "NaN" s with
        | Some t =>
            match match_tail t with
            | Some (g, k) => Some (g, (3 + k)%nat)
            | None => None
            end
        | None => None
        end
  end.

(** [re.sub(r':\s*NaN\s*([,\n\}])', r': null\1', content)], from the left
    and without overlaps; [skip] characters are first passed over, being
    the rest of a match that has been replaced. *)
Fixpoint sub_nan (skip : nat) (s : string) : string :=
  match s with
  | EmptyString => EmptyString
  | String c s' =>
      match skip with
      | S k => sub_nan k s'
      | O =>
          if Ascii.eqb c ":" then
            match match_nan s' with
            | Some (g, k) => ": null" +:+ String g (sub_nan k s')
            | None => String c (sub_nan 0 s')
            end
          else String c (sub_nan 0 s')
      end
  end.

(** [fix_nan_in_json]: the content written back for a content read. *)
Definition fix_nan_in_json (content : string) : string := sub_nan 0 content.

(** Whether the pattern of [fix_nan_in_json] matches somewhere in a text. *)
Fixpoint search_nan (s : string) : bool :=
  match s with
  | EmptyString => false
  | String c s' =>
      (Ascii.eqb c ":" && bool_decide (is_Some (match_nan s'))) || search_nan s'
  end.

(** A text of white space only. *)
Fixpoint all_space (s : string) : bool :=
  match s with
  | EmptyString => true
  | String c s' => is_space c && all_space s'
  end.

(** * Properties *)

(** ** Numbers *)

(** Linear arithmetic with the floor divisions by constants unfolded. *)
Ltac lia_div := Z.to_euclidean_division_equations; lia.

Lemma Qc_of_Z_this (z : Z) : this (Qc_of_Z z) = inject_Z z.
Proof. reflexivity. Qed.

Lemma py_int_PInt (z : Z) : py_int (PInt z) = Ok z.
Proof. simpl. by rewrite Z.quot_1_r. Qed.

Lemma Qc_of_Z_le (a b : Z) : (Qc_of_Z a ≤ Qc_of_Z b)%Qc ↔ a ≤ b.
Proof. unfold Qcle. by rewrite !Qc_of_Z_this, <- Zle_Qle. Qed.

Lemma Qle_bool_Z_l (lo z : Z) :
  Qle_bool (inject_Z lo) (Qc_of_Z z) = (lo <=? z).
Proof.
  apply eq_true_iff_eq.
  by rewrite Qle_bool_iff, Qc_of_Z_this, <- Zle_Qle, Z.leb_le.
Qed.

Lemma Qle_bool_Z_r (z hi : Z) :
  Qle_bool (Qc_of_Z z) (inject_Z hi) = (z <=? hi).
Proof.
  apply eq_true_iff_eq.
  by rewrite Qle_bool_iff, Qc_of_Z_this, <- Zle_Qle, Z.leb_le.
Qed.

(** ** The benchmark table *)

Lemma benchmark_keys (k v : Z) :
  revenue_benchmarks !! k = Some v → 0 ≤ k ≤ 100 ∧ k `mod` 10 = 0.
Proof.
  intros H. apply elem_of_list_to_map_2 in H.
  repeat (apply elem_of_cons in H as [[= -> ->]|H]; [by vm_compute|]).
  by apply elem_of_nil in H.
Qed.

Lemma benchmark_at_decade (k : Z) :
  0 ≤ k ≤ 10 → benchmark_at (k * 10) = Ok (benchmark (k * 10)) ∧
               0 < benchmark (k * 10).
Proof.
  intros Hk.
  assert (k = 0 ∨ k = 1 ∨ k = 2 ∨ k = 3 ∨ k = 4 ∨ k = 5 ∨ k = 6 ∨ k = 7
          ∨ k = 8 ∨ k = 9 ∨ k = 10) as Hcases by lia.
  repeat (destruct Hcases as [->|Hcases]; [by vm_compute|]).
  subst. by vm_compute.
Qed.

Lemma benchmark_at_missing (k : Z) :
  k < 0 ∨ 100 < k → benchmark_at k = Raise KeyError.
Proof.
  intros Hk. unfold benchmark_at.
  destruct (revenue_benchmarks !! k) as [v|] eqn:E; [|done].
  apply benchmark_keys in E. lia.
Qed.

(** ** The estimator on each part of its domain *)

Lemma estimate_in_range (v : pyval) (n : Z) :
  isna v = false → py_int v = Ok n → 0 ≤ n ≤ 100 →
  estimate_song_revenue v = Ok (reference_revenue n).
Proof.
  intros Hna Hint Hn. unfold estimate_song_revenue, reference_revenue.
  rewrite Hna, Hint. cbn [mbind result_bind].
  set (k := n / 10). assert (0 ≤ k ≤ 10) as Hk by (unfold k; lia_div).
  destruct (benchmark_at_decade k Hk) as [Hlo _].
  assert (Z.min (k * 10 + 10) 100 = Z.min (k + 1) 10 * 10) as Hup by lia.
  destruct (benchmark_at_decade (Z.min (k + 1) 10)) as [Hhi _]; [lia|].
  rewrite Hup. case_bool_decide as Heq.
  - rewrite <- Heq, Hlo. cbn [fmap result_fmap]. f_equal. ring.
  - by rewrite Hlo, Hhi.
Qed.

Lemma estimate_above_table (v : pyval) (n : Z) :
  isna v = false → py_int v = Ok n → 100 ≤ n ≤ 109 →
  estimate_song_revenue v = Ok (Qc_of_Z 30000000).
Proof.
  intros Hna Hint Hn. unfold estimate_song_revenue.
  rewrite Hna, Hint. cbn [mbind result_bind].
  replace (n / 10) with 10 by lia_div. done.
Qed.

Lemma estimate_out_of_range (v : pyval) (n : Z) :
  isna v = false → py_int v = Ok n → n < 0 ∨ 110 ≤ n →
  estimate_song_revenue v = Raise KeyError.
Proof.
  intros Hna Hint Hn. unfold estimate_song_revenue.
  rewrite Hna, Hint. cbn [mbind result_bind].
  rewrite bool_decide_eq_false_2 by lia_div.
  rewrite (benchmark_at_missing (n / 10 * 10)) by lia_div. done.
Qed.

(** The reference never decreases from one integer to the next. *)
Lemma reference_revenue_step (n : Z) :
  0 ≤ n < 100 → (reference_revenue n ≤ reference_revenue (n + 1))%Qc.
Proof.
  intros Hn.
  assert (forallb (λ n, Qle_bool (reference_revenue n)
                          (reference_revenue (n + 1))) (seqZ 0 100) = true)
    as Hall by (by vm_compute).
  rewrite forallb_forall in Hall. apply Qle_bool_iff, Hall.
  apply list_elem_of_In, elem_of_seqZ. lia.
Qed.

Lemma reference_revenue_mono (n m : Z) :
  0 ≤ n → n ≤ m → m ≤ 100 →
  (reference_revenue n ≤ reference_revenue m)%Qc.
Proof.
  intros Hn Hnm. revert m Hnm.
  refine (Zlt_lower_bound_ind _ n _).
  intros m IH Hnm Hm. destruct (decide (m = n)) as [->|Hne]; [done|].
  trans (reference_revenue (m - 1)).
  - apply IH; lia.
  - replace m with (m - 1 + 1) at 2 by lia. apply reference_revenue_step. lia.
Qed.

Lemma reference_revenue_pos (n : Z) :
  0 ≤ n ≤ 100 → (0 ≤ reference_revenue n)%Qc.
Proof.
  intros Hn. trans (reference_revenue 0).
  - by vm_compute.
  - apply reference_revenue_mono; lia.
Qed.

Lemma Qc_of_Z_0 : Qc_of_Z 0 = 0%Qc.
Proof. by apply Qc_is_canon. Qed.

Lemma reference_revenue_at_benchmark (p v : Z) :
  revenue_benchmarks !! p = Some v → reference_revenue p = Qc_of_Z v.
Proof.
  intros Hv. pose proof (benchmark_keys _ _ Hv) as [_ Hmod].
  unfold reference_revenue. replace (p / 10 * 10) with p by lia_div.
  unfold benchmark at 1 3. rewrite Hv, Z.sub_diag, Qc_of_Z_0. cbn [default from_option id].
  unfold Qcdiv. ring.
Qed.

(** Closes [Ok x = Ok y] between two computed rationals. *)
Ltac qc_compute := vm_compute; f_equal; apply Qc_is_canon; reflexivity.

(** ** Truncation of a rational *)

Lemma trunc_nonneg (q : Qc) :
  (0 ≤ q)%Qc → 0 ≤ Qnum q ∧ Qnum q ÷ Z.pos (Qden q) = Qnum q / Z.pos (Qden q).
Proof.
  intros H. unfold Qcle, Qle in H. change (this 0%Qc) with (0 # 1)%Q in H.
  cbn in H. split; [lia|].
  apply Z.quot_div_nonneg; lia.
Qed.

Lemma trunc_mono (p q : Qc) :
  (0 ≤ p)%Qc → (p ≤ q)%Qc →
  Qnum p ÷ Z.pos (Qden p) ≤ Qnum q ÷ Z.pos (Qden q).
Proof.
  intros Hp Hpq. assert (0 ≤ q)%Qc as Hq by (by trans p).
  destruct (trunc_nonneg p Hp) as [Hp0 ->].
  destruct (trunc_nonneg q Hq) as [Hq0 ->].
  unfold Qcle, Qle in Hpq.
  apply Z.div_le_lower_bound; [lia|].
  pose proof (Z.mul_div_le (Qnum p) (Z.pos (Qden p)) eq_refl). nia.
Qed.

Lemma trunc_bounds (q : Qc) (hi : Z) :
  (0 ≤ q)%Qc → (q ≤ Qc_of_Z hi)%Qc → 0 ≤ Qnum q ÷ Z.pos (Qden q) ≤ hi.
Proof.
  intros Hq Hhi. destruct (trunc_nonneg q Hq) as [Hq0 ->].
  unfold Qcle, Qle in Hhi. rewrite Qc_of_Z_this in Hhi. cbn in Hhi.
  split; [apply Z.div_pos; lia|].
  apply Z.div_le_upper_bound; lia.
Qed.

(** ** The classifier on integers *)

Lemma classify_song_PInt (p : Z) :
  classify_song (PInt p) =
  Ok (if (80 <=? p) && (p <=? 100) then hit
      else if (65 <=? p) && (p <=? 79) then good
      else if (35 <=? p) && (p <=? 64) then mid
      else if (0 <=? p) && (p <=? 34) then bust
      else unknown).
Proof.
  unfold classify_song, PInt. cbn -[Qle_bool Qc_of_Z].
  rewrite !Qle_bool_Z_l, !Qle_bool_Z_r.
  repeat (destruct (_ <=? p); cbn; try done; destruct (p <=? _); cbn;
          try done).
Qed.

(** ** Claims about the revenue estimator and the classifier *)

(** C2. [estimate_song_revenue] equals the specification's piecewise-linear
    reference over the 11-point benchmark table: a missing popularity gives
    0; at a popularity that is a key of the table it gives the table value;
    at every integer popularity [p] in [0,100] it gives
    [benchmark[lower] + (benchmark[upper]-benchmark[lower]) * (p-lower)/10];
    in particular 0, 50, 100 and 45 give 500, 150000, 30000000 and
    112500. *)
Theorem estimate_revenue_is_reference (p : Z) :
  0 ≤ p ≤ 100 →
  estimate_song_revenue PNaN = Ok 0%Qc ∧
  estimate_song_revenue (PInt p) = Ok (reference_revenue p) ∧
  (∀ v, revenue_benchmarks !! p = Some v →
        estimate_song_revenue (PInt p) = Ok (Qc_of_Z v)) ∧
  estimate_song_revenue (PInt 0) = Ok (Qc_of_Z 500) ∧
  estimate_song_revenue (PInt 50) = Ok (Qc_of_Z 150000) ∧
  estimate_song_revenue (PInt 100) = Ok (Qc_of_Z 30000000) ∧
  estimate_song_revenue (PInt 45) = Ok (Qc_of_Z 112500).
Proof.
  intros Hp.
  assert (estimate_song_revenue (PInt p) = Ok (reference_revenue p)) as Href
    by (apply estimate_in_range; [done | apply py_int_PInt | done]).
  split; [done|]. split; [done|]. split.
  { intros v Hv. by rewrite Href, (reference_revenue_at_benchmark p v). }
  repeat split; qc_compute.
Qed.

Lemma estimate_revenue_is_reference_witness :
  0 ≤ 45 ≤ 100 ∧
  estimate_song_revenue (PInt 45) = Ok (reference_revenue 45).
Proof.
  split; [lia|]. apply (estimate_revenue_is_reference 45). lia.
Defined.

(** C3. The four inclusive tier ranges partition the integers 0..100: for
    every integer [p] there, [classify_song] returns a tier other than
    [unknown], and a range of the tier table contains [p] exactly when it is
    the range of that tier; 79 is [good], 80 is [hit], and a missing
    popularity is [unknown]. *)
Theorem classify_song_partitions (p : Z) :
  0 ≤ p ≤ 100 →
  (∃ t, classify_song (PInt p) = Ok t ∧ t ≠ unknown ∧
        ∀ t' lo hi, (t', (lo, hi)) ∈ tier_definitions →
                    (lo ≤ p ≤ hi ↔ t' = t)) ∧
  classify_song (PInt 79) = Ok good ∧
  classify_song (PInt 80) = Ok hit ∧
  classify_song PNaN = Ok unknown.
Proof.
  intros Hp. split; [|by rewrite !classify_song_PInt].
  rewrite classify_song_PInt. eexists. split; [done|].
  match goal with |- ?x ≠ _ ∧ _ => remember x as t eqn:Ht end.
  assert ((80 ≤ p ∧ t = hit) ∨ (65 ≤ p ≤ 79 ∧ t = good)
          ∨ (35 ≤ p ≤ 64 ∧ t = mid) ∨ (p ≤ 34 ∧ t = bust)) as Hcases.
  { subst t.
    destruct (Z.leb_spec 80 p), (Z.leb_spec p 100), (Z.leb_spec 65 p),
      (Z.leb_spec p 79), (Z.leb_spec 35 p), (Z.leb_spec p 64),
      (Z.leb_spec 0 p), (Z.leb_spec p 34); cbn;
      solve [ lia | left; split; [lia|done]
            | right; left; split; [lia|done]
            | do 2 right; left; split; [lia|done]
            | do 3 right; split; [lia|done] ]. }
  clear Ht.
  destruct Hcases as [[H ->]|[[H ->]|[[H ->]|[H ->]]]];
    (split; [done|]); intros t' lo hi Hin; unfold tier_definitions in Hin;
    repeat (apply elem_of_cons in Hin as [[= -> -> ->]|Hin];
            [split; intros ?; first [done | lia | exfalso; lia]|]);
    by apply elem_of_nil in Hin.
Qed.

Lemma classify_song_partitions_witness :
  0 ≤ 79 ≤ 100 ∧ classify_song (PInt 79) = Ok good.
Proof.
  split; [lia|]. apply (classify_song_partitions 79). lia.
Defined.

Lemma estimate_result_nonneg (v : pyval) (x : Qc) :
  estimate_song_revenue v = Ok x → (0 ≤ x)%Qc.
Proof.
  intros Hx. destruct (isna v) eqn:Hna.
  { unfold estimate_song_revenue in Hx. rewrite Hna in Hx.
    by injection Hx as <-. }
  destruct (py_int v) as [n|e] eqn:Hint.
  - destruct (decide (n < 0 ∨ 110 ≤ n)) as [Hout|Hin].
    { by rewrite (estimate_out_of_range v n) in Hx. }
    destruct (decide (n ≤ 100)) as [Hle|Hgt].
    + rewrite (estimate_in_range v n) in Hx by (done || lia).
      injection Hx as <-. apply reference_revenue_pos. lia.
    + rewrite (estimate_above_table v n) in Hx by (done || lia).
      injection Hx as <-. by vm_compute.
  - unfold estimate_song_revenue in Hx. by rewrite Hna, Hint in Hx.
Qed.

(** C7. On popularities in [0,100] the estimate never decreases: for
    [p <= q] there, both estimates exist and the first is at most the
    second. A missing popularity gives 0, and whatever the input, a
    returned estimate is never negative. *)
Theorem estimate_revenue_monotone_nonneg (p q : Qc) :
  (0 ≤ p)%Qc → (p ≤ q)%Qc → (q ≤ Qc_of_Z 100)%Qc →
  (∃ x y, estimate_song_revenue (PNum p) = Ok x ∧
          estimate_song_revenue (PNum q) = Ok y ∧ (x ≤ y)%Qc) ∧
  estimate_song_revenue PNaN = Ok 0%Qc ∧
  (∀ v x, estimate_song_revenue v = Ok x → (0 ≤ x)%Qc).
Proof.
  intros Hp Hpq Hq. split; [|split; [done|apply estimate_result_nonneg]].
  assert (0 ≤ q)%Qc as Hq0 by (by trans p).
  assert (p ≤ Qc_of_Z 100)%Qc as Hp100 by (by trans q).
  pose proof (trunc_bounds p 100 Hp Hp100) as Hn.
  pose proof (trunc_bounds q 100 Hq0 Hq) as Hm.
  pose proof (trunc_mono p q Hp Hpq) as Hnm.
  eexists _, _. split; [|split].
  - by apply (estimate_in_range (PNum p) _ eq_refl eq_refl).
  - by apply (estimate_in_range (PNum q) _ eq_refl eq_refl).
  - apply reference_revenue_mono; lia.
Qed.

Lemma estimate_revenue_monotone_nonneg_witness :
  ∃ x y, estimate_song_revenue (PInt 45) = Ok x ∧
         estimate_song_revenue (PInt 82) = Ok y ∧ (x ≤ y)%Qc.
Proof.
  apply (estimate_revenue_monotone_nonneg (Qc_of_Z 45) (Qc_of_Z 82));
    by vm_compute.
Defined.

(** C10. The estimator is total exactly where its table lookups succeed.
    With [n] the integer [int(popularity)] of a present popularity: for
    [0 <= n <= 109] (so for the whole range [0,100] of the data model)
    both table lookups succeed and the call returns a value; for [n < 0]
    or [n >= 110] the lower-bound key is not in the 11-point table and the
    call raises KeyError. *)
Theorem estimate_revenue_domain (v : pyval) (n : Z) :
  isna v = false → py_int v = Ok n →
  let lower_bound := n / 10 * 10 in
  let upper_bound := Z.min (lower_bound + 10) 100 in
  (0 ≤ n ≤ 109 →
   (∃ lo, benchmark_at lower_bound = Ok lo) ∧
   (∃ hi, benchmark_at upper_bound = Ok hi) ∧
   (∃ x, estimate_song_revenue v = Ok x)) ∧
  (n < 0 ∨ 110 ≤ n →
   benchmark_at lower_bound = Raise KeyError ∧
   estimate_song_revenue v = Raise KeyError).
Proof.
  intros Hna Hint lower_bound upper_bound. split.
  - intros Hn.
    assert (0 ≤ n / 10 ≤ 10) as Hk by lia_div.
    destruct (benchmark_at_decade (n / 10) Hk) as [Hlo _].
    assert (upper_bound = Z.min (n / 10 + 1) 10 * 10) as Hup
      by (unfold upper_bound, lower_bound; lia).
    destruct (benchmark_at_decade (Z.min (n / 10 + 1) 10)) as [Hhi _];
      [lia|].
    split; [by eexists|]. split; [rewrite Hup; by eexists|].
    destruct (decide (n ≤ 100)).
    + eexists. apply (estimate_in_range v n); (done || lia).
    + eexists. apply (estimate_above_table v n); (done || lia).
  - intros Hn. split.
    + apply benchmark_at_missing. unfold lower_bound. lia_div.
    + by apply (estimate_out_of_range v n).
Qed.

Lemma estimate_revenue_domain_witness :
  (∃ x, estimate_song_revenue (PInt 109) = Ok x) ∧
  estimate_song_revenue (PInt 110) = Raise KeyError ∧
  estimate_song_revenue (PInt (-1)) = Raise KeyError.
Proof.
  split; [|split].
  - apply (estimate_revenue_domain (PInt 109) 109);
      [reflexivity | reflexivity | lia].
  - apply (estimate_revenue_domain (PInt 110) 110);
      [reflexivity | reflexivity | lia].
  - apply (estimate_revenue_domain (PInt (-1)) (-1));
      [reflexivity | reflexivity | lia].
Defined.

(** ** The aggregation, artist by artist *)

Lemma rollup_cons (o : option Acc.t) (r : row) (es : list row) :
  rollup o (r :: es) = rollup (Some (absorb (default new_acc o) r)) es.
Proof. by destruct es. Qed.

Lemma rollup_app (o : option Acc.t) (es1 es2 : list row) :
  rollup o (es1 ++ es2) = rollup (rollup o es1) es2.
Proof.
  destruct es1 as [|r1 es1]; [done|]. destruct es2 as [|r2 es2].
  - by rewrite app_nil_r.
  - cbn. by rewrite foldl_app.
Qed.

Lemma credit_lookup r t rev (m : gmap string Acc.t) (x a : string) :
  credit r t rev m x !! a =
  if decide (x = a)
  then Some (update_artist r t rev (default new_acc (m !! a)))
  else m !! a.
Proof.
  unfold credit. destruct (decide (x = a)) as [->|Hne].
  - by rewrite lookup_insert_eq.
  - by rewrite lookup_insert_ne.
Qed.

Lemma credit_fold_lookup (r : row) (names : list string)
    (m : gmap string Acc.t) (a : string) :
  foldl (credit r (tier_of r) (revenue_of r)) m names !! a =
  rollup (m !! a) (replicate (credits a names) r).
Proof.
  revert m. induction names as [|x names IH]; intros m; [done|].
  cbn [foldl]. rewrite IH, credit_lookup. unfold credits.
  rewrite filter_cons. destruct (decide (x = a)) as [->|Hne].
  - cbn [length replicate]. by rewrite rollup_cons.
  - done.
Qed.

Lemma process_row_ok (m : gmap string Acc.t) (r : row) :
  scores r →
  process_row m r =
  Ok (foldl (credit r (tier_of r) (revenue_of r)) m
        (parse_artists (r_artists r))).
Proof.
  intros [[t Ht] [x Hx]]. unfold process_row, tier_of, revenue_of.
  by rewrite Ht, Hx.
Qed.

Lemma process_row_inv (m m' : gmap string Acc.t) (r : row) :
  process_row m r = Ok m' →
  scores r ∧
  m' = foldl (credit r (tier_of r) (revenue_of r)) m
         (parse_artists (r_artists r)).
Proof.
  unfold process_row, scores, tier_of, revenue_of.
  destruct (classify_song _) as [t|e]; [|done].
  destruct (estimate_song_revenue _) as [x|e]; [|done].
  cbn. intros [= <-]. eauto.
Qed.

Lemma process_row_lookup (m m' : gmap string Acc.t) (r : row) (a : string) :
  process_row m r = Ok m' → m' !! a = rollup (m !! a) (row_credits a r).
Proof.
  intros [_ ->]%process_row_inv. apply credit_fold_lookup.
Qed.

Lemma accumulate_ok (m : gmap string Acc.t) (rows : list row) :
  Forall scores rows → ∃ m', accumulate m rows = Ok m'.
Proof.
  intros Hrows. revert m. induction Hrows as [|r rows Hr _ IH]; intros m.
  - by eexists.
  - cbn [accumulate]. rewrite (process_row_ok m r Hr). apply IH.
Qed.

Lemma accumulate_inv (m m' : gmap string Acc.t) (rows : list row) :
  accumulate m rows = Ok m' →
  Forall scores rows ∧ ∀ a, m' !! a = rollup (m !! a) (entries a rows).
Proof.
  revert m. induction rows as [|r rows IH]; intros m.
  - intros [= <-]. done.
  - cbn [accumulate]. destruct (process_row m r) as [m1|e] eqn:Hr; [|done].
    cbn. intros [Hrows Hlook]%IH.
    pose proof (process_row_inv _ _ _ Hr) as [Hs _].
    split; [by constructor|]. intros a.
    rewrite Hlook, (process_row_lookup _ _ _ a Hr).
    unfold entries. cbn [mbind list_bind]. by rewrite rollup_app.
Qed.

(** ** Accumulator fields after a list of credits *)

Lemma bump_count (P : row → bool) (r : row) (n : nat) (es : list row) :
  (bump (P r) n + count P es = n + count P (r :: es))%nat.
Proof.
  unfold count. rewrite filter_cons. destruct (P r); cbn.
  - rewrite decide_True by done. cbn. lia.
  - rewrite decide_False by done. lia.
Qed.

Lemma absorb_total_songs (d : Acc.t) (es : list row) :
  Acc.total_songs (foldl absorb d es) = (Acc.total_songs d + length es)%nat.
Proof.
  revert d. induction es as [|r es IH]; intros d; cbn [foldl length]; [lia|].
  rewrite IH. cbn. lia.
Qed.

Lemma absorb_hit_songs (d : Acc.t) (es : list row) :
  Acc.hit_songs (foldl absorb d es)
  = (Acc.hit_songs d + count (is_tier hit) es)%nat.
Proof.
  revert d. induction es as [|r es IH]; intros d; cbn [foldl].
  - unfold count. cbn. lia.
  - rewrite IH. apply (bump_count (is_tier hit)).
Qed.

Lemma absorb_good_songs (d : Acc.t) (es : list row) :
  Acc.good_songs (foldl absorb d es)
  = (Acc.good_songs d + count (is_tier good) es)%nat.
Proof.
  revert d. induction es as [|r es IH]; intros d; cbn [foldl].
  - unfold count. cbn. lia.
  - rewrite IH. apply (bump_count (is_tier good)).
Qed.

Lemma absorb_mid_songs (d : Acc.t) (es : list row) :
  Acc.mid_songs (foldl absorb d es)
  = (Acc.mid_songs d + count (is_tier mid) es)%nat.
Proof.
  revert d. induction es as [|r es IH]; intros d; cbn [foldl].
  - unfold count. cbn. lia.
  - rewrite IH. apply (bump_count (is_tier mid)).
Qed.

Lemma absorb_bust_songs (d : Acc.t) (es : list row) :
  Acc.bust_songs (foldl absorb d es)
  = (Acc.bust_songs d + count (is_tier bust) es)%nat.
Proof.
  revert d. induction es as [|r es IH]; intros d; cbn [foldl].
  - unfold count. cbn. lia.
  - rewrite IH. apply (bump_count (is_tier bust)).
Qed.

Lemma absorb_explicit_count (d : Acc.t) (es : list row) :
  Acc.explicit_count (foldl absorb d es)
  = (Acc.explicit_count d + count is_explicit es)%nat.
Proof.
  revert d. induction es as [|r es IH]; intros d; cbn [foldl].
  - unfold count. cbn. lia.
  - rewrite IH. apply (bump_count is_explicit).
Qed.

Lemma absorb_total_revenue (d : Acc.t) (es : list row) :
  Acc.total_revenue (foldl absorb d es)
  = (Acc.total_revenue d + qsum (revenue_of <$> es))%Qc.
Proof.
  revert d. induction es as [|r es IH]; intros d; cbn [foldl fmap list_fmap].
  - unfold qsum. cbn. ring.
  - rewrite IH. unfold qsum. cbn. ring.
Qed.



Lemma default_rollup (o : option Acc.t) (es : list row) :
  default new_acc (rollup o es) = foldl absorb (default new_acc o) es.
Proof. by destruct es. Qed.

Lemma Qc_of_nat_S (n : nat) : Qc_of_nat (S n) = (Qc_of_nat n + 1)%Qc.
Proof.
  unfold Qc_of_nat. rewrite Nat2Z.inj_succ, <- Z.add_1_r, Z2Qc_inj_add.
  f_equal; by apply Qc_is_canon.
Qed.

Lemma qsum_replicate (n : nat) (x : Qc) :
  qsum (replicate n x) = (Qc_of_nat n * x)%Qc.
Proof.
  induction n as [|n IH].
  - change (Qc_of_nat 0) with (Qc_of_Z 0). rewrite Qc_of_Z_0.
    unfold qsum. cbn. ring.
  - rewrite Qc_of_nat_S. unfold qsum in *. cbn. rewrite IH. ring.
Qed.

Lemma count_replicate (P : row → bool) (n : nat) (r : row) :
  count P (replicate n r) = if P r then n else 0%nat.
Proof.
  induction n as [|n IH]; [by destruct (P r)|].
  unfold count in *. cbn [replicate]. rewrite filter_cons.
  destruct (P r) eqn:HP.
  - rewrite decide_True by done. cbn. by rewrite IH.
  - rewrite decide_False by done. done.
Qed.

(** The accumulator of artist [a] after one row, from the one before. *)
Lemma process_row_after (m m' : gmap string Acc.t) (r : row) (a : string) :
  process_row m r = Ok m' →
  default new_acc (m' !! a)
  = foldl absorb (default new_acc (m !! a)) (row_credits a r).
Proof.
  intros Hr. by rewrite (process_row_lookup _ _ _ a Hr), default_rollup.
Qed.

(** A row whose popularity is as the data model has it, missing or an
    integer in [0,100], gets its tier and revenue. *)
Lemma data_model_scores (r : row) :
  r_popularity r = PNaN ∨ (∃ p, r_popularity r = PInt p ∧ 0 ≤ p ≤ 100) →
  scores r.
Proof.
  unfold scores. intros [->|(p & -> & Hp)]; split.
  - by eexists.
  - by eexists.
  - rewrite classify_song_PInt. by eexists.
  - eexists. apply (estimate_in_range _ p); [done|apply py_int_PInt|done].
Qed.

(** ** Claims about one row of the aggregation *)

(** C1, as stated, fails: a song whose artist field is "A, A" has two
    parseable names, and it raises the [total_songs] of artist A from 0 to
    2, not by exactly 1, and adds its revenue twice. *)
Lemma fan_out_counts_each_occurrence :
  parse_artists (r_artists song_credited_twice) = ["A"; "A"]%string ∧
  ∃ m d, process_row ∅ song_credited_twice = Ok m ∧
         m !! "A"%string = Some d ∧
         Acc.total_songs d = 2%nat ∧
         Acc.total_revenue d
         = (revenue_of song_credited_twice
            + revenue_of song_credited_twice)%Qc.
Proof.
  split; [done|]. eexists _, _. split; [by vm_compute|].
  split; [by vm_compute|]. split; [done|].
  apply Qc_is_canon. by vm_compute.
Qed.

(** C1, amended. Tier and revenue are computed once per row, before the
    loop over its credited names. When both are computed, the row is
    processed, and every artist's [total_songs] grows by the number of times
    the artist's name occurs among the parsed names of the row (by exactly 1
    for a name that occurs once), and the artist's running revenue grows by
    that many times the one revenue figure of the row. An artist who is not
    named keeps the entry, or the absence of an entry, from before; a row
    with no parseable name leaves the whole mapping as it was. *)
Theorem fan_out_per_credit (artist_data : gmap string Acc.t) (r : row) :
  scores r →
  ∃ artist_data',
    process_row artist_data r = Ok artist_data' ∧
    (∀ a,
       let n := credits a (parse_artists (r_artists r)) in
       let before := default new_acc (artist_data !! a) in
       let after := default new_acc (artist_data' !! a) in
       Acc.total_songs after = (Acc.total_songs before + n)%nat ∧
       Acc.total_revenue after
       = (Acc.total_revenue before + Qc_of_nat n * revenue_of r)%Qc ∧
       (n = 0%nat → artist_data' !! a = artist_data !! a) ∧
       (n = 1%nat → Acc.total_songs after = S (Acc.total_songs before) ∧
                    Acc.total_revenue after
                    = (Acc.total_revenue before + revenue_of r)%Qc)) ∧
    (parse_artists (r_artists r) = [] → artist_data' = artist_data).
Proof.
  intros Hr. eexists. split; [by apply process_row_ok|].
  pose proof (process_row_ok artist_data r Hr) as Hok. split.
  - intros a n before after.
    assert (after = foldl absorb before (replicate n r)) as Hafter
      by apply (process_row_after _ _ _ a Hok).
    assert (Acc.total_songs after = (Acc.total_songs before + n)%nat) as Hn.
    { by rewrite Hafter, absorb_total_songs, length_replicate. }
    assert (Acc.total_revenue after
            = (Acc.total_revenue before + Qc_of_nat n * revenue_of r)%Qc)
      as Hrev.
    { by rewrite Hafter, absorb_total_revenue, fmap_replicate,
        qsum_replicate. }
    split; [done|]. split; [done|]. split.
    + intros Hn0. rewrite (process_row_lookup _ _ _ a Hok).
      unfold row_credits. fold n. by rewrite Hn0.
    + intros Hn1. rewrite Hn, Hrev, Hn1. split; [lia|].
      f_equal. replace (Qc_of_nat 1) with 1%Qc by (by apply Qc_is_canon).
      ring.
  - intros Hnil. by rewrite Hnil.
Qed.

Lemma fan_out_per_credit_witness :
  scores song_credited_twice ∧
  ∃ m, process_row ∅ song_credited_twice = Ok m ∧
       Acc.total_songs (default new_acc (m !! "A"%string)) = 2%nat.
Proof.
  assert (scores song_credited_twice) as Hs
    by (split; eexists; by vm_compute).
  split; [exact Hs|].
  destruct (fan_out_per_credit ∅ song_credited_twice Hs) as (m & Hm & Hall & _).
  exists m. split; [exact Hm|]. destruct (Hall "A"%string) as [Hn _].
  exact Hn.
Defined.

Lemma analyze_artists_lookup (rows : list row)
    (profiles : gmap string Profile.t) (a : string) :
  analyze_artists rows = Ok profiles →
  profiles !! a = finalize <$> rollup None (entries a rows).
Proof.
  unfold analyze_artists.
  destruct (accumulate ∅ rows) as [m|e] eqn:Hacc; [|done].
  intros [= <-]. apply accumulate_inv in Hacc as [_ Hlook].
  by rewrite lookup_fmap, Hlook, lookup_empty.
Qed.

Lemma analyze_artists_profile (rows : list row)
    (profiles : gmap string Profile.t) (a : string) (p : Profile.t) :
  analyze_artists rows = Ok profiles → profiles !! a = Some p →
  entries a rows ≠ [] ∧ p = finalize (foldl absorb new_acc (entries a rows)).
Proof.
  intros Hrows Hp. rewrite (analyze_artists_lookup rows profiles a Hrows) in Hp.
  destruct (entries a rows) as [|e es]; [done|]. by injection Hp as <-.
Qed.

Lemma analyze_artists_ok (rows : list row) :
  Forall scores rows → ∃ profiles, analyze_artists rows = Ok profiles.
Proof.
  intros Hrows. unfold analyze_artists.
  destruct (accumulate_ok ∅ rows Hrows) as [m ->]. by eexists.
Qed.

(** C8, as stated, fails for an unparseable popularity: the cell is not
    NaN, so [classify_song] compares the text with the tier bounds, which
    raises TypeError; the row gets no tier and the aggregation stops. *)
Lemma unparseable_popularity_raises :
  isna (r_popularity song_unparseable_popularity) = false ∧
  classify_song (r_popularity song_unparseable_popularity) = Raise TypeError ∧
  process_row ∅ song_unparseable_popularity = Raise TypeError ∧
  analyze_artists [song_unparseable_popularity] = Raise TypeError.
Proof. by vm_compute. Qed.

(** C8, amended. For every song whose popularity is missing (NaN), the
    tier is [unknown] and the revenue 0; the row is processed, the
    hit/good/mid/bust counters and the running revenue of every artist stay
    as they were, and [total_songs] of every artist grows by the number of
    times the artist is named in the row (1 for an artist named once). *)
Theorem missing_popularity_is_unknown
    (artist_data : gmap string Acc.t) (r : row) :
  r_popularity r = PNaN →
  classify_song (r_popularity r) = Ok unknown ∧
  estimate_song_revenue (r_popularity r) = Ok 0%Qc ∧
  ∃ artist_data',
    process_row artist_data r = Ok artist_data' ∧
    ∀ a,
      let n := credits a (parse_artists (r_artists r)) in
      let before := default new_acc (artist_data !! a) in
      let after := default new_acc (artist_data' !! a) in
      Acc.total_songs after = (Acc.total_songs before + n)%nat ∧
      Acc.hit_songs after = Acc.hit_songs before ∧
      Acc.good_songs after = Acc.good_songs before ∧
      Acc.mid_songs after = Acc.mid_songs before ∧
      Acc.bust_songs after = Acc.bust_songs before ∧
      Acc.total_revenue after = Acc.total_revenue before.
Proof.
  intros Hpop. rewrite Hpop. split; [done|]. split; [done|].
  assert (scores r) as Hr by (unfold scores; rewrite Hpop; eauto).
  assert (tier_of r = unknown) as Htier by (unfold tier_of; by rewrite Hpop).
  assert (revenue_of r = 0%Qc) as Hrev
    by (unfold revenue_of; by rewrite Hpop).
  pose proof (process_row_ok artist_data r Hr) as Hok.
  eexists. split; [done|]. intros a n before after.
  assert (after = foldl absorb before (replicate n r)) as ->
    by apply (process_row_after _ _ _ a Hok).
  rewrite absorb_total_songs, length_replicate, absorb_hit_songs,
    absorb_good_songs, absorb_mid_songs, absorb_bust_songs,
    absorb_total_revenue, !count_replicate, fmap_replicate, qsum_replicate.
  unfold is_tier. rewrite Htier, Hrev.
  rewrite !bool_decide_eq_false_2 by done.
  repeat split; try lia. ring.
Qed.

Lemma missing_popularity_is_unknown_witness :
  let r := {| r_song := Some "X"%string; r_artists := Some "A, B"%string;
              r_popularity := PNaN; r_genre := None;
              r_explicit := PStr "No"; r_release_date := DNaN;
              r_audio := λ _, None |} in
  r_popularity r = PNaN ∧ ∃ m, process_row ∅ r = Ok m.
Proof.
  intros r. split; [reflexivity|].
  destruct (missing_popularity_is_unknown ∅ r eq_refl) as (_ & _ & m & Hm & _).
  by exists m.
Defined.




(** ** Rounding and sums *)

Lemma Qc_of_Z_100_ne_0 : Qc_of_Z 100 ≠ 0%Qc.
Proof. intros H. by apply (f_equal this) in H. Qed.

Lemma round_half_even_Z (z : Z) : round_half_even (Qc_of_Z z) = z.
Proof.
  unfold round_half_even. rewrite Qc_of_Z_this, Qfloor_Z.
  replace (Qc_of_Z z - Qc_of_Z z)%Qc with 0%Qc by ring.
  by rewrite bool_decide_eq_true_2 by (by vm_compute).
Qed.

Lemma round2_hundredths (x : Qc) : hundredths x → round2 x = x.
Proof.
  intros [z ->]. unfold round2.
  replace (Qc_of_Z z / Qc_of_Z 100 * Qc_of_Z 100)%Qc with (Qc_of_Z z).
  - by rewrite round_half_even_Z.
  - field. apply Qc_of_Z_100_ne_0.
Qed.

Lemma round2_is_hundredths (x : Qc) : hundredths (round2 x).
Proof. by eexists. Qed.

Lemma round2_idemp (x : Qc) : round2 (round2 x) = round2 x.
Proof. apply round2_hundredths, round2_is_hundredths. Qed.





Lemma nat_sum_from (a : nat) (l : list nat) :
  foldl Nat.add a l = (a + sum_list l)%nat.
Proof.
  revert a. induction l as [|x l IH]; intros a; cbn; [lia|].
  rewrite IH. lia.
Qed.

Lemma nat_sum_sum_list (l : list nat) : nat_sum l = sum_list l.
Proof. unfold nat_sum. by rewrite nat_sum_from. Qed.

(** ** Claim about the summary *)


(** The profiles of [analyze_artists] carry that rounding. *)
Lemma analyze_artists_rounded (rows : list row)
    (profiles : gmap string Profile.t) :
  analyze_artists rows = Ok profiles →
  map_Forall (λ _ p, round2 (Profile.estimated_total_revenue p)
                     = Profile.estimated_total_revenue p) profiles.
Proof.
  intros Hrows a p Hp.
  destruct (analyze_artists_profile rows profiles a p Hrows Hp) as [_ ->].
  apply round2_idemp.
Qed.


(** ** Saving a missing popularity *)

Lemma has_nan_token (l : list token) :
  existsb is_nan_token l = true → TNaN ∈ l.
Proof.
  intros (t & Hin & Ht)%existsb_exists. apply list_elem_of_In.
  by destruct t.
Qed.

(** C4 fails on the code. The popularity of a song is stored as it is in
    the retained song entry; for a song without popularity that is the
    float NaN, and [save_results] hands it to [json.dump], which writes the
    token NaN, not null. *)
Theorem save_results_writes_NaN :
  ∃ profiles,
    analyze_artists [song_missing_popularity] = Ok profiles ∧
    (sd_popularity <$>
       default [] (Profile.songs <$> profiles !! "A"%string)) = [PNaN] ∧
    TNaN ∈ save_results profiles.
Proof.
  eexists. split; [by vm_compute|]. split; [by vm_compute|].
  apply has_nan_token. by vm_compute.
Qed.

(** ** Quantities that do not depend on the order of a list *)









(** ** Order-independence of the aggregation *)



(** The caveat of C5: the primary genre is the genre met first among those
    with the largest count, so it follows the order of the input. *)
Lemma primary_genre_follows_order :
  (∃ profiles, analyze_artists [song_pop; song_rock] = Ok profiles ∧
     Profile.primary_genre <$> profiles !! "A"%string = Some (Some "pop"%string)) ∧
  (∃ profiles, analyze_artists [song_rock; song_pop] = Ok profiles ∧
     Profile.primary_genre <$> profiles !! "A"%string = Some (Some "rock"%string)).
Proof. split; eexists; split; by vm_compute. Qed.



(** * Further properties *)

(** ** [parse_artists] *)

Lemma lstrip_starts_clean (s : string) : starts_clean (lstrip s).
Proof.
  induction s as [|c s IH]; [done|]. cbn.
  by destruct (is_space c) eqn:Hc.
Qed.

Lemma lstrip_clean (s : string) : starts_clean s → lstrip s = s.
Proof. destruct s as [|c s]; [done|]. cbn. by intros ->. Qed.

Lemma rstrip_ends_clean (s : string) : ends_clean (rstrip s).
Proof.
  induction s as [|c s IH]; [done|]. cbn.
  destruct (rstrip s) as [|c' t] eqn:Ht.
  - by destruct (is_space c) eqn:Hc.
  - done.
Qed.

Lemma rstrip_clean (s : string) : ends_clean s → rstrip s = s.
Proof.
  induction s as [|c s IH]; [done|]. cbn. destruct s as [|c' s'].
  - cbn. by intros ->.
  - intros Hs. by rewrite (IH Hs).
Qed.

Lemma rstrip_starts_clean (s : string) :
  starts_clean s → starts_clean (rstrip s).
Proof.
  destruct s as [|c s]; [done|]. cbn. intros Hc.
  destruct (rstrip s); [by rewrite Hc|done].
Qed.

Lemma strip_clean (s : string) :
  starts_clean (strip s) ∧ ends_clean (strip s).
Proof.
  unfold strip. split.
  - apply rstrip_starts_clean, lstrip_starts_clean.
  - apply rstrip_ends_clean.
Qed.

Lemma strip_fixed (s : string) :
  starts_clean s → ends_clean s → strip s = s.
Proof. intros Hs He. unfold strip. by rewrite (lstrip_clean s Hs), rstrip_clean. Qed.

Lemma has_char_lstrip (c : ascii) (s : string) :
  has_char c (lstrip s) = true → has_char c s = true.
Proof.
  induction s as [|c' s IH]; [done|]. cbn.
  destruct (is_space c'); [|done]. intros H. rewrite (IH H).
  apply orb_true_r.
Qed.

Lemma has_char_rstrip (c : ascii) (s : string) :
  has_char c (rstrip s) = true → has_char c s = true.
Proof.
  induction s as [|c' s IH]; [done|]. cbn.
  destruct (rstrip s) as [|c'' t] eqn:Ht.
  - destruct (is_space c'); [done|]. cbn. rewrite orb_false_r.
    intros ->. done.
  - cbn in *. destruct (Ascii.eqb c' c); [done|]. cbn. apply IH.
Qed.

Lemma has_char_strip (c : ascii) (s : string) :
  has_char c (strip s) = true → has_char c s = true.
Proof. intros H. by apply has_char_lstrip, has_char_rstrip. Qed.

Lemma split_no_separator (sep : ascii) (s w : string) :
  w ∈ split sep s → has_char sep w = false.
Proof.
  revert w. induction s as [|c s IH]; intros w; cbn.
  - intros ->%list_elem_of_singleton. done.
  - destruct (Ascii.eqb_spec c sep) as [->|Hne].
    + intros [->|Hin]%elem_of_cons; [done|by apply IH].
    + destruct (split sep s) as [|w0 ws] eqn:Hsplit.
      * intros ->%list_elem_of_singleton. cbn.
        by rewrite (proj2 (Ascii.eqb_neq c sep) Hne).
      * intros [->|Hin]%elem_of_cons.
        -- cbn. rewrite (proj2 (Ascii.eqb_neq c sep) Hne). cbn.
           apply IH. by left.
        -- apply IH. by right.
Qed.

(** X1. Every name [parse_artists] returns is non-empty, has no white space
    at either end (stripping it again changes nothing) and contains no
    comma; a NaN cell gives no name. *)
Theorem parse_artists_names_clean (cell : option string) (a : string) :
  a ∈ parse_artists cell →
  a ≠ EmptyString ∧ strip a = a ∧ has_char "," a = false ∧
  parse_artists None = [].
Proof.
  destruct cell as [s|]; cbn; [|by intros ?%elem_of_nil].
  intros [Hne Hin]%list_elem_of_filter.
  apply list_elem_of_fmap in Hin as (w & -> & Hw).
  split; [done|]. split; [|split; [|done]].
  - destruct (strip_clean w). by apply strip_fixed.
  - destruct (has_char "," (strip w)) eqn:Hc; [|done].
    apply has_char_strip in Hc.
    by rewrite (split_no_separator _ _ _ Hw) in Hc.
Qed.

Lemma parse_artists_names_clean_witness :
  "B"%string ∈ parse_artists (Some " A , B ,, "%string) ∧
  strip "B" = "B"%string.
Proof.
  assert ("B"%string ∈ parse_artists (Some " A , B ,, "%string)) as Hin
    by (vm_compute; set_solver).
  split; [exact Hin|].
  apply (parse_artists_names_clean (Some " A , B ,, "%string) "B" Hin).
Defined.

(** ** [classify_song] on any number *)

Lemma classify_in_number (t : tier) (lo hi : Z) defs (q : Qc) :
  classify_in ((t, (lo, hi)) :: defs) (PNum q) =
  if bool_decide (Qc_of_Z lo ≤ q ≤ Qc_of_Z hi)%Qc then Ok t
  else classify_in defs (PNum q).
Proof.
  cbn -[Qle_bool].
  destruct (Qle_bool (inject_Z lo) q) eqn:Hlo; cbn -[Qle_bool].
  - apply Qle_bool_iff in Hlo.
    destruct (Qle_bool q (inject_Z hi)) eqn:Hhi; cbn -[Qle_bool].
    + apply Qle_bool_iff in Hhi. by rewrite bool_decide_eq_true_2.
    + rewrite bool_decide_eq_false_2; [done|]. intros [_ H].
      apply Qle_bool_iff in H. unfold Qc_of_Z in H. cbn in H. congruence.
  - rewrite bool_decide_eq_false_2; [done|]. intros [H _].
    apply Qle_bool_iff in H. unfold Qc_of_Z in H. cbn in H. congruence.
Qed.

Lemma Qc_ranges_apart (a b : Z) (q : Qc) :
  a < b → (Qc_of_Z b ≤ q)%Qc → (q ≤ Qc_of_Z a)%Qc → False.
Proof.
  intros Hab Hb Ha. assert (Qc_of_Z b ≤ Qc_of_Z a)%Qc as H by (by trans q).
  rewrite Qc_of_Z_le in H. lia.
Qed.

(** X2. On a number [classify_song] never raises, and it returns a tier
    exactly when the number lies in the closed range of that tier; so every
    number outside the four ranges, below 0, above 100 or strictly between
    two ranges (such as 79.5), is [unknown]. *)
Theorem classify_song_number (q : Qc) :
  ∃ t, classify_song (PNum q) = Ok t ∧
       (t = hit ↔ (Qc_of_Z 80 ≤ q ≤ Qc_of_Z 100)%Qc) ∧
       (t = good ↔ (Qc_of_Z 65 ≤ q ≤ Qc_of_Z 79)%Qc) ∧
       (t = mid ↔ (Qc_of_Z 35 ≤ q ≤ Qc_of_Z 64)%Qc) ∧
       (t = bust ↔ (Qc_of_Z 0 ≤ q ≤ Qc_of_Z 34)%Qc).
Proof.
  unfold classify_song, tier_definitions. cbn [isna].
  rewrite !classify_in_number. cbn [classify_in].
  repeat case_bool_decide; eexists; (split; [done|]);
    repeat split; try done;
    intros Hin; try done; try tauto; exfalso;
    repeat match goal with H : (_ ≤ _ ≤ _)%Qc |- _ => destruct H end;
    first [ by eapply (Qc_ranges_apart 79 80)
          | by eapply (Qc_ranges_apart 64 80)
          | by eapply (Qc_ranges_apart 34 80)
          | by eapply (Qc_ranges_apart 64 65)
          | by eapply (Qc_ranges_apart 34 65)
          | by eapply (Qc_ranges_apart 34 35) ].
Qed.

(** ** Strict growth of the estimate *)

Lemma reference_revenue_step_strict (n : Z) :
  0 ≤ n < 100 → (reference_revenue n < reference_revenue (n + 1))%Qc.
Proof.
  intros Hn.
  assert (forallb (λ n, negb (Qle_bool (reference_revenue (n + 1))
                                (reference_revenue n))) (seqZ 0 100) = true)
    as Hall by (by vm_compute).
  rewrite forallb_forall in Hall.
  specialize (Hall n). rewrite negb_true_iff in Hall.
  apply Qclt_nge. intros Hle. apply Qle_bool_iff in Hle.
  rewrite Hall in Hle; [done|]. apply list_elem_of_In, elem_of_seqZ. lia.
Qed.

(** X3. On the integers 0..100 the estimate grows strictly: a larger
    popularity always has a strictly larger estimated revenue, so no two
    popularities there share an estimate. *)
Theorem estimate_revenue_strictly_increasing (p q : Z) :
  0 ≤ p → p < q → q ≤ 100 →
  ∃ x y, estimate_song_revenue (PInt p) = Ok x ∧
         estimate_song_revenue (PInt q) = Ok y ∧ (x < y)%Qc.
Proof.
  intros Hp Hpq Hq. exists (reference_revenue p), (reference_revenue q).
  split; [|split].
  - apply estimate_in_range; [done|apply py_int_PInt|lia].
  - apply estimate_in_range; [done|apply py_int_PInt|lia].
  - apply Qcle_lt_trans with (reference_revenue (q - 1)).
    + apply reference_revenue_mono; lia.
    + replace q with (q - 1 + 1) at 2 by lia.
      apply reference_revenue_step_strict. lia.
Qed.

Lemma estimate_revenue_strictly_increasing_witness :
  ∃ x y, estimate_song_revenue (PInt 79) = Ok x ∧
         estimate_song_revenue (PInt 80) = Ok y ∧ (x < y)%Qc.
Proof. apply (estimate_revenue_strictly_increasing 79 80); lia. Defined.

(** ** Which inputs the aggregation accepts *)

Lemma classify_in_bool defs (b : bool) :
  ∃ t, classify_in defs (PBool b) = Ok t.
Proof.
  induction defs as [|[t [lo hi]] defs [t' IH]]; [by eexists|].
  cbn. destruct (lo <=? Z_of_bool b); cbn; [|by eexists].
  destruct (Z_of_bool b <=? hi); by eexists.
Qed.

Lemma classify_in_number_total defs (q : Qc) :
  ∃ t, classify_in defs (PNum q) = Ok t.
Proof.
  induction defs as [|[t [lo hi]] defs [t' IH]]; [by eexists|].
  rewrite classify_in_number. case_bool_decide; by eexists.
Qed.

Lemma scores_accepted (r : row) : scores r ↔ accepted (r_popularity r).
Proof.
  unfold scores. destruct (r_popularity r) as [|q|s|b]; cbn [accepted].
  - split; [done|]. intros _. split; by eexists.
  - split.
    + intros [_ [x Hx]].
      set (n := Qnum q ÷ Z.pos (Qden q)) in *.
      destruct (decide (0 ≤ n ≤ 109)) as [|Hout]; [done|].
      rewrite (estimate_out_of_range (PNum q) n) in Hx; [done..|lia].
    + intros Hn. split.
      * apply classify_in_number_total.
      * destruct (decide (Qnum q ÷ Z.pos (Qden q) ≤ 100)).
        -- eexists. apply (estimate_in_range (PNum q) _ eq_refl eq_refl). lia.
        -- eexists.
           apply (estimate_above_table (PNum q) _ eq_refl eq_refl). lia.
  - split; [|done]. by intros [[t Ht] _].
  - split; [done|]. intros _. split.
    + apply classify_in_bool.
    + eexists. apply (estimate_in_range (PBool b) (Z_of_bool b)); [done..|].
      destruct b; cbn; lia.
Qed.

Lemma process_row_rejected (m : gmap string Acc.t) (r : row) :
  ¬ accepted (r_popularity r) →
  process_row m r = Raise (rejection (r_popularity r)).
Proof.
  unfold process_row. destruct (r_popularity r) as [|q|s|b] eqn:Hpop;
    cbn [accepted rejection]; intros Hrej; try done.
  destruct (classify_in_number_total tier_definitions q) as [t Ht].
  rewrite (estimate_out_of_range (PNum q) _ eq_refl eq_refl) by lia.
  unfold classify_song. cbn [isna]. by rewrite Ht.
Qed.

Lemma accumulate_app (m : gmap string Acc.t) (rows1 rows2 : list row) :
  accumulate m (rows1 ++ rows2) =
  match accumulate m rows1 with
  | Ok m1 => accumulate m1 rows2
  | Raise e => Raise e
  end.
Proof.
  revert m. induction rows1 as [|r rows1 IH]; intros m; [done|].
  cbn. destruct (process_row m r); cbn; [apply IH|done].
Qed.


(** X5. The first row with a popularity that is not accepted aborts the
    whole analysis, whatever the rows after it: the result is the exception
    of that row, TypeError for a text and KeyError for a number out of
    range, and no profile of the rows before it is returned. *)
Theorem analyze_artists_first_bad_row (before after : list row) (r : row) :
  Forall (λ r, accepted (r_popularity r)) before →
  ¬ accepted (r_popularity r) →
  analyze_artists (before ++ r :: after)
  = Raise (rejection (r_popularity r)).
Proof.
  intros Hbefore Hr. unfold analyze_artists. rewrite accumulate_app.
  destruct (accumulate_ok ∅ before) as [m ->].
  { eapply Forall_impl; [exact Hbefore|]. intros r'. apply scores_accepted. }
  cbn. by rewrite (process_row_rejected m r Hr).
Qed.

Lemma analyze_artists_first_bad_row_witness :
  analyze_artists
    ([song_pop] ++ song_unparseable_popularity :: [song_rock])
  = Raise TypeError.
Proof.
  apply (analyze_artists_first_bad_row [song_pop]
           [song_rock] song_unparseable_popularity).
  - apply Forall_singleton. by vm_compute.
  - intros H. exact H.
Defined.

(** ** The profiles of an analysis *)

Lemma absorb_songs (d : Acc.t) (es : list row) :
  Acc.songs (foldl absorb d es) = Acc.songs d ++ (entry_of <$> es).
Proof.
  revert d. induction es as [|r es IH]; intros d; cbn [foldl fmap list_fmap].
  - by rewrite app_nil_r.
  - rewrite IH. cbn. by rewrite <- app_assoc.
Qed.

Lemma credits_pos (a : string) (names : list string) :
  (0 < credits a names)%nat ↔ a ∈ names.
Proof.
  unfold credits. induction names as [|x names IH].
  - cbn. split; [lia|by intros ?%elem_of_nil].
  - rewrite filter_cons, elem_of_cons. destruct (decide (x = a)) as [->|Hne].
    + cbn. split; [by left|lia].
    + rewrite IH. split; [by right|]. by intros [->|?].
Qed.

Lemma entries_cons (a : string) (r : row) (rows : list row) :
  entries a (r :: rows) = row_credits a r ++ entries a rows.
Proof. done. Qed.

Lemma entries_length (a : string) (rows : list row) :
  length (entries a rows)
  = sum_list ((λ r, credits a (parse_artists (r_artists r))) <$> rows).
Proof.
  induction rows as [|r rows IH]; [done|].
  rewrite entries_cons, length_app, IH. unfold row_credits.
  by rewrite length_replicate.
Qed.

Lemma entries_elem (a : string) (rows : list row) (e : row) :
  e ∈ entries a rows ↔ e ∈ rows ∧ a ∈ parse_artists (r_artists e).
Proof.
  induction rows as [|r rows IH].
  - split; [by intros ?%elem_of_nil|by intros [?%elem_of_nil _]].
  - rewrite entries_cons, elem_of_app, elem_of_cons, IH. unfold row_credits.
    rewrite elem_of_replicate, <- credits_pos. split.
    + intros [[-> Hn]|[Hin Ha]]; [split; [by left|lia]|by split; [right|]].
    + intros [[->|Hin] Ha]; [left; split; [done|lia]|by right].
Qed.

Lemma entries_nonempty (a : string) (rows : list row) :
  entries a rows ≠ [] ↔ ∃ r, r ∈ rows ∧ a ∈ parse_artists (r_artists r).
Proof.
  split.
  - destruct (entries a rows) as [|e es] eqn:Hes; [done|]. intros _.
    exists e. apply entries_elem. rewrite Hes. by left.
  - intros (r & Hr & Ha) Hnil.
    assert (r ∈ entries a rows) as Hin by (by apply entries_elem).
    rewrite Hnil in Hin. by apply elem_of_nil in Hin.
Qed.

(** X6. The artists of the result are exactly the names parsed from some
    row: an artist has a profile if and only if some row credits the name.
    The [total_songs] of a profile is the number of times the rows credit
    the artist, and is never 0. *)
Theorem analyze_artists_artists (rows : list row)
    (profiles : gmap string Profile.t) (a : string) :
  analyze_artists rows = Ok profiles →
  (is_Some (profiles !! a) ↔
   ∃ r, r ∈ rows ∧ a ∈ parse_artists (r_artists r)) ∧
  (∀ p, profiles !! a = Some p →
        (1 ≤ Profile.total_songs p)%nat ∧
        Profile.total_songs p
        = sum_list ((λ r, credits a (parse_artists (r_artists r))) <$> rows)).
Proof.
  intros Hrows. split.
  - rewrite <- entries_nonempty, (analyze_artists_lookup rows profiles a Hrows).
    destruct (entries a rows) as [|e es]; cbn.
    + split; [by intros [? ?]|done].
    + split; [done|]. intros _. by eexists.
  - intros p Hp.
    destruct (analyze_artists_profile rows profiles a p Hrows Hp) as [Hne ->].
    cbn [finalize Profile.total_songs].
    rewrite absorb_total_songs, <- entries_length. cbn.
    split; [|done]. destruct (entries a rows); [done|cbn; lia].
Qed.

Lemma analyze_artists_artists_witness :
  ∃ profiles,
    analyze_artists [song_pop; song_rock] = Ok profiles ∧
    is_Some (profiles !! "B"%string).
Proof.
  destruct (analyze_artists_ok [song_pop; song_rock]) as [profiles Hp].
  { repeat constructor; eexists; by vm_compute. }
  exists profiles. split; [exact Hp|].
  apply (analyze_artists_artists [song_pop; song_rock] profiles "B" Hp).
  exists song_rock. split; [set_solver|]. vm_compute. set_solver.
Defined.

Lemma count_is_tier (t : tier) (es : list row) :
  count (is_tier t) es = songs_of_tier t (entry_of <$> es).
Proof.
  unfold count, songs_of_tier, is_tier.
  induction es as [|r es IH]; [done|].
  cbn [fmap list_fmap]. rewrite !filter_cons. cbn [entry_of sd_tier].
  destruct (decide (tier_of r = t)) as [Ht|Ht].
  - rewrite decide_True by (by apply bool_decide_eq_true). cbn. by rewrite IH.
  - rewrite decide_False; [done|]. by rewrite bool_decide_eq_true.
Qed.

Lemma songs_by_tier (songs : list song_entry) :
  (songs_of_tier hit songs + songs_of_tier good songs
   + songs_of_tier mid songs + songs_of_tier bust songs
   + songs_of_tier unknown songs)%nat = length songs.
Proof.
  unfold songs_of_tier. induction songs as [|s songs IH]; [done|].
  rewrite !filter_cons. cbn [length]. rewrite <- IH.
  destruct (sd_tier s);
    repeat (first [rewrite decide_True by done
                  | rewrite decide_False by done]); cbn; lia.
Qed.

(** X7. The retained song list of a profile agrees with its counters:
    [total_songs] is the length of the list, each tier counter is the
    number of listed songs of that tier, the four counters and the number
    of [unknown] songs add up to [total_songs], and
    [estimated_total_revenue] is the sum of the listed revenues rounded to
    2 decimals. *)
Theorem profile_counts_match_songs (rows : list row)
    (profiles : gmap string Profile.t) (a : string) (p : Profile.t) :
  analyze_artists rows = Ok profiles → profiles !! a = Some p →
  let songs := Profile.songs p in
  Profile.total_songs p = length songs ∧
  Profile.hit_songs p = songs_of_tier hit songs ∧
  Profile.good_songs p = songs_of_tier good songs ∧
  Profile.mid_songs p = songs_of_tier mid songs ∧
  Profile.bust_songs p = songs_of_tier bust songs ∧
  (Profile.hit_songs p + Profile.good_songs p + Profile.mid_songs p
   + Profile.bust_songs p + songs_of_tier unknown songs)%nat
  = Profile.total_songs p ∧
  Profile.estimated_total_revenue p = round2 (qsum (sd_revenue <$> songs)).
Proof.
  intros Hrows Hp songs.
  destruct (analyze_artists_profile rows profiles a p Hrows Hp) as [_ ->].
  subst songs. cbn [finalize Profile.total_songs Profile.hit_songs
    Profile.good_songs Profile.mid_songs Profile.bust_songs Profile.songs
    Profile.estimated_total_revenue].
  rewrite absorb_songs, absorb_total_songs, absorb_hit_songs,
    absorb_good_songs, absorb_mid_songs, absorb_bust_songs,
    absorb_total_revenue, !count_is_tier.
  cbn [new_acc Acc.songs Acc.total_songs Acc.hit_songs Acc.good_songs
    Acc.mid_songs Acc.bust_songs Acc.total_revenue app Nat.add].
  rewrite length_fmap, <- list_fmap_compose.
  split; [done|]. repeat (split; [done|]). split.
  - rewrite songs_by_tier. by rewrite length_fmap.
  - by rewrite Qcplus_0_l.
Qed.

Lemma profile_counts_match_songs_witness :
  ∃ profiles p,
    analyze_artists [song_pop; song_rock] = Ok profiles ∧
    profiles !! "A"%string = Some p ∧
    Profile.total_songs p = length (Profile.songs p).
Proof.
  destruct (analyze_artists_ok [song_pop; song_rock]) as [profiles Hp].
  { repeat constructor; eexists; by vm_compute. }
  destruct (profiles !! "A"%string) as [p|] eqn:Ha.
  - exists profiles, p. split; [exact Hp|]. split; [exact Ha|].
    apply (profile_counts_match_songs [song_pop; song_rock] profiles "A" p
             Hp Ha).
  - exfalso.
    rewrite (analyze_artists_lookup _ _ "A"%string Hp) in Ha.
    vm_compute in Ha. discriminate Ha.
Defined.

(** X8. Every retained song entry carries the tier and the revenue of its
    own popularity: [classify_song] and [estimate_song_revenue] applied to
    the stored popularity return the stored tier and revenue. *)
Theorem retained_songs_genuine (rows : list row)
    (profiles : gmap string Profile.t) (a : string) (p : Profile.t)
    (s : song_entry) :
  analyze_artists rows = Ok profiles → profiles !! a = Some p →
  s ∈ Profile.songs p →
  classify_song (sd_popularity s) = Ok (sd_tier s) ∧
  estimate_song_revenue (sd_popularity s) = Ok (sd_revenue s).
Proof.
  intros Hrows Hp Hs.
  destruct (analyze_artists_profile rows profiles a p Hrows Hp) as [_ ->].
  cbn [finalize Profile.songs] in Hs. rewrite absorb_songs in Hs.
  cbn [new_acc Acc.songs app] in Hs.
  apply list_elem_of_fmap in Hs as (r & -> & Hr).
  apply entries_elem in Hr as [Hr _].
  unfold analyze_artists in Hrows.
  destruct (accumulate ∅ rows) as [m|e] eqn:Hacc; [|done].
  apply accumulate_inv in Hacc as [Hscores _].
  rewrite Forall_forall in Hscores.
  destruct (Hscores r Hr) as [[t Ht] [x Hx]].
  cbn [entry_of sd_popularity sd_tier sd_revenue].
  unfold tier_of, revenue_of. by rewrite Ht, Hx.
Qed.

Lemma retained_songs_genuine_witness :
  ∃ profiles p s,
    analyze_artists [song_pop] = Ok profiles ∧
    profiles !! "A"%string = Some p ∧ s ∈ Profile.songs p ∧
    classify_song (sd_popularity s) = Ok (sd_tier s).
Proof.
  destruct (analyze_artists_ok [song_pop]) as [profiles Hp].
  { repeat constructor; eexists; by vm_compute. }
  destruct (profiles !! "A"%string) as [p|] eqn:Ha.
  - destruct (Profile.songs p) as [|s songs] eqn:Hsongs.
    + exfalso.
      destruct (analyze_artists_profile _ _ _ _ Hp Ha) as [_ Heq].
      rewrite Heq in Hsongs. vm_compute in Hsongs. discriminate Hsongs.
    + assert (s ∈ Profile.songs p) as Hs by (rewrite Hsongs; by left).
      exists profiles, p, s. split; [exact Hp|]. split; [exact Ha|].
      split; [exact Hs|].
      apply (retained_songs_genuine [song_pop] profiles "A" p s Hp Ha Hs).
  - exfalso.
    rewrite (analyze_artists_lookup _ _ "A"%string Hp) in Ha.
    vm_compute in Ha. discriminate Ha.
Defined.

(** ** Bounds of the rounded values *)

Lemma round_half_even_between (q : Qc) :
  Qfloor q ≤ round_half_even q ≤ Qfloor q + 1.
Proof.
  unfold round_half_even.
  repeat case_bool_decide; try lia. destruct (Z.even (Qfloor q)); lia.
Qed.

Lemma Qfloor_nonneg (q : Qc) : (0 ≤ q)%Qc → 0 ≤ Qfloor q.
Proof.
  intros Hq. change 0 with (Qfloor 0). by apply Qfloor_resp_le.
Qed.

Lemma Qfloor_below (q : Qc) (z : Z) : (q ≤ Qc_of_Z z)%Qc → Qfloor q ≤ z.
Proof.
  intros Hq. rewrite <- (Qfloor_Z z). apply Qfloor_resp_le.
  by rewrite <- Qc_of_Z_this.
Qed.

Lemma Qfloor_reaches (q : Qc) (z : Z) :
  (q ≤ Qc_of_Z z)%Qc → Qfloor q = z → q = Qc_of_Z z.
Proof.
  intros Hq Hz. apply (anti_symm Qcle); [done|].
  unfold Qcle. rewrite Qc_of_Z_this, <- Hz. apply Qfloor_le.
Qed.

Lemma round_half_even_range (q : Qc) (hi : Z) :
  (0 ≤ q)%Qc → (q ≤ Qc_of_Z hi)%Qc → 0 ≤ round_half_even q ≤ hi.
Proof.
  intros H0 Hhi. pose proof (round_half_even_between q) as Hb.
  pose proof (Qfloor_nonneg q H0). pose proof (Qfloor_below q hi Hhi).
  split; [lia|]. destruct (decide (Qfloor q = hi)) as [Heq|Hne]; [|lia].
  rewrite (Qfloor_reaches q hi Hhi Heq), round_half_even_Z. lia.
Qed.

Lemma Qc_of_Z_mult (a b : Z) : Qc_of_Z (a * b) = (Qc_of_Z a * Qc_of_Z b)%Qc.
Proof.
  apply Qc_is_canon. cbn. rewrite Qred_correct. unfold Qeq. cbn. lia.
Qed.

Lemma Qc_100_pos : (0 < Qc_of_Z 100)%Qc.
Proof. by vm_compute. Qed.

Lemma Qc_div_100_le (x : Qc) (z : Z) :
  (x ≤ Qc_of_Z z * Qc_of_Z 100)%Qc → (x / Qc_of_Z 100 ≤ Qc_of_Z z)%Qc.
Proof.
  intros H. apply (Qcmult_lt_0_le_reg_r _ _ (Qc_of_Z 100) Qc_100_pos).
  replace (x / Qc_of_Z 100 * Qc_of_Z 100)%Qc with x; [done|].
  field. apply Qc_of_Z_100_ne_0.
Qed.

Lemma Qc_div_100_nonneg (x : Qc) : (0 ≤ x)%Qc → (0 ≤ x / Qc_of_Z 100)%Qc.
Proof.
  intros H. apply (Qcmult_lt_0_le_reg_r _ _ (Qc_of_Z 100) Qc_100_pos).
  replace (x / Qc_of_Z 100 * Qc_of_Z 100)%Qc with x
    by (field; apply Qc_of_Z_100_ne_0).
  by rewrite Qcmult_0_l.
Qed.

Lemma round2_nonneg (x : Qc) : (0 ≤ x)%Qc → (0 ≤ round2 x)%Qc.
Proof.
  intros Hx. unfold round2. apply Qc_div_100_nonneg.
  rewrite <- Qc_of_Z_0. apply Qc_of_Z_le.
  assert (0 ≤ x * Qc_of_Z 100)%Qc as H0.
  { rewrite <- (Qcmult_0_l (Qc_of_Z 100)).
    apply Qcmult_le_compat_r; [done|]. apply Qclt_le_weak, Qc_100_pos. }
  pose proof (round_half_even_between (x * Qc_of_Z 100)).
  pose proof (Qfloor_nonneg _ H0). lia.
Qed.

Lemma round2_range (x : Qc) (hi : Z) :
  (0 ≤ x)%Qc → (x ≤ Qc_of_Z hi)%Qc →
  (0 ≤ round2 x)%Qc ∧ (round2 x ≤ Qc_of_Z hi)%Qc.
Proof.
  intros H0 Hhi. split; [by apply round2_nonneg|].
  unfold round2. apply Qc_div_100_le. rewrite <- Qc_of_Z_mult.
  apply Qc_of_Z_le. apply round_half_even_range.
  - rewrite <- (Qcmult_0_l (Qc_of_Z 100)).
    apply Qcmult_le_compat_r; [done|]. apply Qclt_le_weak, Qc_100_pos.
  - rewrite Qc_of_Z_mult. apply Qcmult_le_compat_r; [done|].
    apply Qclt_le_weak, Qc_100_pos.
Qed.

Lemma Qc_of_Z_lt (a b : Z) : a < b → (Qc_of_Z a < Qc_of_Z b)%Qc.
Proof. unfold Qclt. by rewrite !Qc_of_Z_this, <- Zlt_Qlt. Qed.

Lemma Qc_of_nat_pos (n : nat) : (0 < n)%nat → (0 < Qc_of_nat n)%Qc.
Proof.
  intros Hn. unfold Qc_of_nat. rewrite <- Qc_of_Z_0. apply Qc_of_Z_lt. lia.
Qed.

Lemma Qc_of_nat_le (n m : nat) :
  (n ≤ m)%nat → (Qc_of_nat n ≤ Qc_of_nat m)%Qc.
Proof. intros H. unfold Qc_of_nat. apply Qc_of_Z_le. lia. Qed.

Lemma Qc_div_pos_nonneg (x d : Qc) :
  (0 ≤ x)%Qc → (0 < d)%Qc → (0 ≤ x / d)%Qc.
Proof.
  intros Hx Hd. apply (Qcmult_lt_0_le_reg_r _ _ d Hd).
  replace (x / d * d)%Qc with x.
  - by rewrite Qcmult_0_l.
  - field. intros ->. by apply (irreflexivity Qclt) in Hd.
Qed.

Lemma percentage_range (c t : nat) :
  (c ≤ t)%nat →
  (0 ≤ percentage c t)%Qc ∧ (percentage c t ≤ Qc_of_Z 100)%Qc.
Proof.
  intros Hct. unfold percentage. case_bool_decide as Ht; [|by vm_compute].
  pose proof (Qc_of_nat_pos t Ht) as Htpos.
  assert (Qc_of_nat t ≠ 0%Qc) as Htne
    by (intros H0; rewrite H0 in Htpos; by apply (irreflexivity Qclt) in Htpos).
  assert (0 ≤ Qc_of_nat c)%Qc as Hc.
  { unfold Qc_of_nat. rewrite <- Qc_of_Z_0. apply Qc_of_Z_le. lia. }
  split.
  - rewrite <- (Qcmult_0_l (Qc_of_Z 100)).
    apply Qcmult_le_compat_r; [|apply Qclt_le_weak, Qc_100_pos].
    by apply Qc_div_pos_nonneg.
  - rewrite <- (Qcmult_1_l (Qc_of_Z 100)) at 2.
    apply Qcmult_le_compat_r; [|apply Qclt_le_weak, Qc_100_pos].
    apply (Qcmult_lt_0_le_reg_r _ _ (Qc_of_nat t) Htpos).
    replace (Qc_of_nat c / Qc_of_nat t * Qc_of_nat t)%Qc with (Qc_of_nat c)
      by (by field).
    rewrite Qcmult_1_l. by apply Qc_of_nat_le.
Qed.

Lemma count_le_length (P : row → bool) (es : list row) :
  (count P es ≤ length es)%nat.
Proof. unfold count. apply length_filter. Qed.

Lemma qsum_nonneg (l : list Qc) : Forall (λ x, 0 ≤ x)%Qc l → (0 ≤ qsum l)%Qc.
Proof.
  induction 1 as [|x l Hx _ IH]; [done|].
  unfold qsum in *. cbn. by apply Qcplus_nonneg_nonneg.
Qed.

Lemma revenue_of_nonneg (r : row) : (0 ≤ revenue_of r)%Qc.
Proof.
  unfold revenue_of.
  destruct (estimate_song_revenue (r_popularity r)) as [x|e] eqn:Hx;
    [|by vm_compute].
  by apply (estimate_result_nonneg (r_popularity r) x).
Qed.

(** X9. In every profile of an analysis the four tier rates and the
    explicit ratio lie between 0 and 100, and the revenue total and the
    average revenue per song are not negative. *)
Theorem profile_values_bounded (rows : list row)
    (profiles : gmap string Profile.t) (a : string) (p : Profile.t) :
  analyze_artists rows = Ok profiles → profiles !! a = Some p →
  Forall (λ x, (0 ≤ x)%Qc ∧ (x ≤ Qc_of_Z 100)%Qc)
    [ Profile.hit_rate p; Profile.good_rate p; Profile.mid_rate p;
      Profile.bust_rate p; Profile.explicit_ratio p ] ∧
  (0 ≤ Profile.estimated_total_revenue p)%Qc ∧
  (0 ≤ Profile.avg_revenue_per_song p)%Qc.
Proof.
  intros Hrows Hp.
  destruct (analyze_artists_profile rows profiles a p Hrows Hp) as [Hne ->].
  set (es := entries a rows) in *.
  cbn [finalize Profile.hit_rate Profile.good_rate Profile.mid_rate
    Profile.bust_rate Profile.explicit_ratio Profile.estimated_total_revenue
    Profile.avg_revenue_per_song].
  rewrite absorb_total_songs, absorb_hit_songs, absorb_good_songs,
    absorb_mid_songs, absorb_bust_songs, absorb_explicit_count,
    absorb_total_revenue.
  cbn [new_acc Acc.total_songs Acc.hit_songs Acc.good_songs Acc.mid_songs
    Acc.bust_songs Acc.explicit_count Acc.total_revenue Nat.add].
  rewrite Qcplus_0_l.
  assert (0 ≤ qsum (revenue_of <$> es))%Qc as Hrev.
  { apply qsum_nonneg, Forall_fmap, Forall_forall. intros r _.
    apply revenue_of_nonneg. }
  split; [|split].
  - repeat constructor;
      try (apply round2_nonneg, percentage_range, count_le_length);
      apply round2_range; apply percentage_range, count_le_length.
  - by apply round2_nonneg.
  - apply round2_nonneg. case_bool_decide as Ht; [|done].
    apply Qc_div_pos_nonneg; [done|by apply Qc_of_nat_pos].
Qed.

Lemma profile_values_bounded_witness :
  ∃ profiles p,
    analyze_artists [song_pop; song_rock] = Ok profiles ∧
    profiles !! "A"%string = Some p ∧
    (0 ≤ Profile.estimated_total_revenue p)%Qc.
Proof.
  destruct (analyze_artists_ok [song_pop; song_rock]) as [profiles Hp].
  { repeat constructor; eexists; by vm_compute. }
  destruct (profiles !! "A"%string) as [p|] eqn:Ha.
  - exists profiles, p. split; [exact Hp|]. split; [exact Ha|].
    apply (profile_values_bounded [song_pop; song_rock] profiles "A" p Hp Ha).
  - exfalso.
    rewrite (analyze_artists_lookup _ _ "A"%string Hp) in Ha.
    vm_compute in Ha. discriminate Ha.
Defined.

(** ** Genres *)

Lemma absorb_genres (d : Acc.t) (es : list row) :
  Acc.genres (foldl absorb d es) = foldl genre_step (Acc.genres d) es.
Proof.
  revert d. induction es as [|r es IH]; intros d; [done|].
  cbn [foldl]. by rewrite IH.
Qed.

Lemma incr_genre_lookup (g x : string) (genres : list (string * nat)) :
  genre_lookup x (incr_genre g genres) =
  if decide (g = x) then Some (S (default 0%nat (genre_lookup g genres)))
  else genre_lookup x genres.
Proof.
  induction genres as [|[g' n] genres IH]; cbn.
  - by destruct (decide (g = x)).
  - destruct (decide (g' = g)) as [->|Hne]; cbn.
    + by destruct (decide (g = x)).
    + rewrite IH. destruct (decide (g' = x)) as [->|Hx].
      * by rewrite decide_False by done.
      * done.
Qed.

Lemma incr_genre_keys (g : string) (genres : list (string * nat)) :
  NoDup genres.*1 → NoDup (incr_genre g genres).*1 ∧
  ∀ x, x ∈ (incr_genre g genres).*1 ↔ x = g ∨ x ∈ genres.*1.
Proof.
  induction genres as [|[g' n] genres IH]; cbn.
  - intros _. split; [apply NoDup_singleton|]. intros x.
    rewrite list_elem_of_singleton, elem_of_nil. tauto.
  - intros [Hnotin Hnd]%NoDup_cons.
    destruct (decide (g' = g)) as [->|Hne]; cbn.
    + split; [by apply NoDup_cons|]. intros x. rewrite elem_of_cons. tauto.
    + destruct (IH Hnd) as [IH1 IH2]. split.
      * apply NoDup_cons. split; [|done]. rewrite IH2. tauto.
      * intros x. rewrite !elem_of_cons, IH2. tauto.
Qed.

Lemma genre_count_snoc (g : string) (es : list row) (r : row) :
  genre_count g (es ++ [r])
  = (genre_count g es + if decide (r_genre r = Some g) then 1 else 0)%nat.
Proof.
  unfold genre_count. rewrite filter_app, length_app. f_equal.
  rewrite filter_cons, filter_nil. by destruct (decide (r_genre r = Some g)).
Qed.

Lemma genres_of_entries (es : list row) :
  let genres := foldl genre_step [] es in
  NoDup genres.*1 ∧
  ∀ g, genre_lookup g genres
       = if decide (genre_count g es = 0%nat) then None
         else Some (genre_count g es).
Proof.
  induction es as [|r es [IHnd IH]] using rev_ind; cbn zeta.
  - split; [constructor|]. done.
  - rewrite foldl_app. cbn [foldl]. unfold genre_step at 1 3.
    destruct (r_genre r) as [g0|] eqn:Hg.
    + split; [by apply incr_genre_keys|]. intros g.
      rewrite incr_genre_lookup, genre_count_snoc, Hg, !IH.
      destruct (decide (g0 = g)) as [->|Hne].
      * rewrite (decide_True (P := Some g = Some g)) by done.
        destruct (decide (genre_count g es = 0%nat)) as [->|Hn]; cbn.
        -- done.
        -- rewrite decide_False by lia. f_equal. lia.
      * rewrite (decide_False (P := Some g0 = Some g)) by congruence.
        by rewrite Nat.add_0_r.
    + split; [done|]. intros g. rewrite genre_count_snoc, Hg, IH.
      rewrite (decide_False (P := None = Some g)) by done.
      by rewrite Nat.add_0_r.
Qed.

(** X10. In the [genre_distribution] of a profile every genre is listed
    once, and the count of a genre is the number of the artist's credits in
    rows of that genre; a genre with no such credit is not listed. *)
Theorem genre_distribution_counts (rows : list row)
    (profiles : gmap string Profile.t) (a : string) (p : Profile.t) :
  analyze_artists rows = Ok profiles → profiles !! a = Some p →
  NoDup (Profile.genre_distribution p).*1 ∧
  ∀ g, genre_lookup g (Profile.genre_distribution p)
       = if decide (genre_count g (entries a rows) = 0%nat) then None
         else Some (genre_count g (entries a rows)).
Proof.
  intros Hrows Hp.
  destruct (analyze_artists_profile rows profiles a p Hrows Hp) as [_ ->].
  cbn [finalize Profile.genre_distribution]. rewrite absorb_genres.
  apply genres_of_entries.
Qed.

Lemma genre_distribution_counts_witness :
  ∃ profiles p,
    analyze_artists [song_pop; song_rock] = Ok profiles ∧
    profiles !! "A"%string = Some p ∧
    genre_lookup "rock" (Profile.genre_distribution p) = Some 1%nat.
Proof.
  destruct (analyze_artists_ok [song_pop; song_rock]) as [profiles Hp].
  { repeat constructor; eexists; by vm_compute. }
  destruct (profiles !! "A"%string) as [p|] eqn:Ha.
  - exists profiles, p. split; [exact Hp|]. split; [exact Ha|].
    destruct (genre_distribution_counts [song_pop; song_rock] profiles "A" p
                Hp Ha) as [_ Hcount].
    exact (Hcount "rock"%string).
  - exfalso.
    rewrite (analyze_artists_lookup _ _ "A"%string Hp) in Ha.
    vm_compute in Ha. discriminate Ha.
Defined.

Lemma first_max_split (pre mid l : list (string * nat))
    (best : string * nat) :
  Forall (λ y, (y.2 < best.2)%nat) pre →
  Forall (λ y, (y.2 ≤ best.2)%nat) mid →
  ∃ l1 l2,
    pre ++ best :: mid ++ l = l1 ++ first_max best l :: l2 ∧
    Forall (λ y, (y.2 < (first_max best l).2)%nat) l1 ∧
    Forall (λ y, (y.2 ≤ (first_max best l).2)%nat) l2.
Proof.
  revert pre mid best. induction l as [|x l IH]; intros pre mid best Hpre Hmid.
  - exists pre, mid. by rewrite app_nil_r.
  - cbn [first_max]. destruct (best.2 <? x.2)%nat eqn:Hlt.
    + apply Nat.ltb_lt in Hlt.
      destruct (IH (pre ++ best :: mid) [] x) as (l1 & l2 & Heq & H1 & H2).
      * apply Forall_app. split; [|apply Forall_cons; split].
        -- eapply Forall_impl; [exact Hpre|]. cbn. intros; lia.
        -- done.
        -- eapply Forall_impl; [exact Hmid|]. cbn. intros; lia.
      * done.
      * exists l1, l2. split; [|done]. rewrite <- Heq. cbn.
        by rewrite <- !app_assoc.
    + apply Nat.ltb_ge in Hlt.
      destruct (IH pre (mid ++ [x]) best) as (l1 & l2 & Heq & H1 & H2).
      * done.
      * apply Forall_app. split; [done|]. by apply Forall_singleton.
      * exists l1, l2. split; [|done]. rewrite <- Heq.
        by rewrite <- !app_assoc.
Qed.

Lemma foldl_genre_step_nil (es : list row) :
  foldl genre_step [] es = [] ↔ Forall (λ r, r_genre r = None) es.
Proof.
  pose proof (genres_of_entries es) as [_ Hlook]. cbn zeta in Hlook. split.
  - intros Hnil. rewrite Hnil in Hlook. apply Forall_forall. intros r Hr.
    destruct (r_genre r) as [g|] eqn:Hg; [|done]. exfalso.
    specialize (Hlook g). cbn in Hlook.
    destruct (decide (genre_count g es = 0%nat)) as [H0|]; [|done].
    unfold genre_count in H0. apply length_zero_iff_nil in H0.
    assert (r ∈ filter (λ r, r_genre r = Some g) es) as Hin
      by (by apply list_elem_of_filter).
    rewrite H0 in Hin. by apply elem_of_nil in Hin.
  - clear Hlook. intros Hall. induction Hall as [|r es Hr _ IH]; [done|].
    cbn [foldl].
    replace (genre_step [] r) with (@nil (string * nat)); [done|].
    unfold genre_step. by rewrite Hr.
Qed.

(** X11. [primary_genre] is absent exactly when none of the artist's
    credits has a genre. Otherwise it is a genre of the distribution whose
    count is at least that of every listed genre and strictly larger than
    that of every genre listed before it: among the genres with the largest
    count, the one listed first. *)
Theorem primary_genre_first_max (rows : list row)
    (profiles : gmap string Profile.t) (a : string) (p : Profile.t) :
  analyze_artists rows = Ok profiles → profiles !! a = Some p →
  (Profile.primary_genre p = None ↔
   Forall (λ r, r_genre r = None) (entries a rows)) ∧
  (∀ g, Profile.primary_genre p = Some g →
     ∃ n l1 l2,
       Profile.genre_distribution p = l1 ++ (g, n) :: l2 ∧
       Forall (λ y, (y.2 < n)%nat) l1 ∧ Forall (λ y, (y.2 ≤ n)%nat) l2).
Proof.
  intros Hrows Hp.
  destruct (analyze_artists_profile rows profiles a p Hrows Hp) as [_ ->].
  cbn [finalize Profile.genre_distribution Profile.primary_genre].
  rewrite absorb_genres. cbn [new_acc Acc.genres].
  rewrite <- foldl_genre_step_nil. unfold primary_genre_of.
  destruct (foldl genre_step [] (entries a rows)) as [|x l]; [done|].
  split; [done|]. intros g [= <-].
  destruct (first_max_split [] [] l x) as (l1 & l2 & Heq & H1 & H2);
    [done..|].
  cbn in Heq. destruct (first_max x l) as [g n]. by exists n, l1, l2.
Qed.

Lemma primary_genre_first_max_witness :
  ∃ profiles p,
    analyze_artists [song_pop; song_rock] = Ok profiles ∧
    profiles !! "A"%string = Some p ∧
    ¬ Forall (λ r, r_genre r = None) (entries "A" [song_pop; song_rock]) ∧
    Profile.primary_genre p ≠ None.
Proof.
  destruct (analyze_artists_ok [song_pop; song_rock]) as [profiles Hp].
  { repeat constructor; eexists; by vm_compute. }
  destruct (profiles !! "A"%string) as [p|] eqn:Ha.
  - exists profiles, p. split; [exact Hp|]. split; [exact Ha|].
    assert (¬ Forall (λ r, r_genre r = None)
              (entries "A" [song_pop; song_rock])) as Hsome.
    { intros Hall. vm_compute in Hall. inversion Hall as [|? ? Hhd _].
      discriminate Hhd. }
    split; [exact Hsome|]. intros Hnone. apply Hsome.
    by apply (primary_genre_first_max [song_pop; song_rock] profiles "A" p
                Hp Ha).
  - exfalso.
    rewrite (analyze_artists_lookup _ _ "A"%string Hp) in Ha.
    vm_compute in Ha. discriminate Ha.
Defined.

(** ** Release dates and audio features *)









(** ** The summary of an analysis *)

Lemma credited_total_insert (m : gmap string Acc.t) (a : string)
    (d : Acc.t) :
  (credited_total (<[a:=d]> m) + Acc.total_songs (default new_acc (m !! a))
   = credited_total m + Acc.total_songs d)%nat.
Proof.
  unfold credited_total. destruct (m !! a) as [d0|] eqn:Ha; cbn.
  - rewrite <- (insert_delete_eq m a d).
    rewrite (map_to_list_insert (delete a m) a d) by apply lookup_delete_eq.
    rewrite <- (map_to_list_delete m a d0 Ha). cbn. lia.
  - rewrite (map_to_list_insert m a d Ha). cbn. lia.
Qed.

Lemma credited_total_credit r t rev (m : gmap string Acc.t) (a : string) :
  credited_total (credit r t rev m a) = S (credited_total m).
Proof.
  unfold credit.
  pose proof (credited_total_insert m a
                (update_artist r t rev (default new_acc (m !! a)))) as H.
  cbn [update_artist Acc.total_songs] in H. lia.
Qed.

Lemma credited_total_fold r t rev (m : gmap string Acc.t)
    (names : list string) :
  credited_total (foldl (credit r t rev) m names)
  = (credited_total m + length names)%nat.
Proof.
  revert m. induction names as [|x names IH]; intros m; cbn; [lia|].
  rewrite IH, credited_total_credit. lia.
Qed.

Lemma credited_total_accumulate (m m' : gmap string Acc.t)
    (rows : list row) :
  accumulate m rows = Ok m' →
  credited_total m' = (credited_total m + length (all_credits rows))%nat.
Proof.
  revert m. induction rows as [|r rows IH]; intros m.
  - intros [= <-]. cbn. lia.
  - cbn [accumulate]. destruct (process_row m r) as [m1|e] eqn:Hr; [|done].
    cbn. intros Hacc. rewrite (IH m1 Hacc).
    apply process_row_inv in Hr as [_ ->].
    rewrite credited_total_fold. unfold all_credits. cbn.
    rewrite length_app. lia.
Qed.

Lemma analyze_artists_dom (rows : list row)
    (profiles : gmap string Profile.t) :
  analyze_artists rows = Ok profiles →
  dom profiles = (list_to_set (all_credits rows) : gset string).
Proof.
  intros Hrows. apply set_eq. intros a.
  rewrite elem_of_dom, elem_of_list_to_set.
  rewrite (analyze_artists_lookup rows profiles a Hrows).
  unfold all_credits. rewrite list_elem_of_bind.
  assert ((∃ y, a ∈ parse_artists (r_artists y) ∧ y ∈ rows)
          ↔ entries a rows ≠ []) as ->
    by (rewrite entries_nonempty; split; intros (y & ? & ?); by exists y).
  destruct (entries a rows) as [|e es]; cbn.
  - split; [by intros [? ?]|done].
  - split; [done|]. intros _. by eexists.
Qed.

(** X14. The summary of an analysis counts credits, not songs: its
    [total_songs] is the number of names parsed from all the rows together,
    so a row with several artists counts once for each and a row with no
    parseable artist not at all; [total_artists] is the number of distinct
    names. *)
Theorem summary_counts_credits (rows : list row)
    (profiles : gmap string Profile.t) :
  analyze_artists rows = Ok profiles →
  let summary := (get_summary_stats profiles).2 in
  Summary.total_songs summary = length (all_credits rows) ∧
  Summary.total_songs summary
  = sum_list ((λ r, length (parse_artists (r_artists r))) <$> rows) ∧
  Summary.total_artists summary
  = size (list_to_set (all_credits rows) : gset string).
Proof.
  intros Hrows summary.
  assert (Summary.total_songs summary = length (all_credits rows)) as Hsongs.
  { subst summary. cbn. rewrite nat_sum_sum_list.
    unfold analyze_artists in Hrows.
    destruct (accumulate ∅ rows) as [m|e] eqn:Hacc; [|done].
    injection Hrows as <-.
    pose proof (credited_total_accumulate _ _ _ Hacc) as Htotal.
    unfold credited_total in Htotal at 2. rewrite map_to_list_empty in Htotal.
    cbn in Htotal. rewrite <- Htotal. unfold credited_total, values.
    rewrite map_to_list_fmap, <- !list_fmap_compose. by f_equal. }
  split; [done|]. split.
  - rewrite Hsongs. unfold all_credits.
    induction rows as [|r rows' IH] in |- *; [done|].
    cbn. rewrite length_app. f_equal. apply IH.
  - subst summary. cbn. rewrite <- (analyze_artists_dom rows profiles Hrows).
    by rewrite size_dom.
Qed.

Lemma summary_counts_credits_witness :
  ∃ profiles,
    analyze_artists [song_pop; song_rock] = Ok profiles ∧
    Summary.total_songs (get_summary_stats profiles).2 = 3%nat.
Proof.
  destruct (analyze_artists_ok [song_pop; song_rock]) as [profiles Hp].
  { repeat constructor; eexists; by vm_compute. }
  exists profiles. split; [exact Hp|].
  destruct (summary_counts_credits [song_pop; song_rock] profiles Hp)
    as [Hsongs _].
  exact Hsongs.
Defined.

(** ** NaN tokens in the saved file *)








(** ** [print_top_artists] *)

Lemma insert_desc_perm {A} (key : A → Qc) (x : A) (l : list A) :
  insert_desc key x l ≡ₚ x :: l.
Proof.
  induction l as [|y l IH]; [done|]. cbn. case_bool_decide; [done|].
  rewrite IH. apply perm_swap.
Qed.

Lemma sorted_desc_perm {A} (key : A → Qc) (l : list A) :
  sorted_desc key l ≡ₚ l.
Proof.
  induction l as [|x l IH]; [done|]. cbn. by rewrite insert_desc_perm, IH.
Qed.

Lemma insert_desc_sorted {A} (key : A → Qc) (x : A) (l : list A) :
  StronglySorted (λ x y, key y ≤ key x)%Qc l →
  StronglySorted (λ x y, key y ≤ key x)%Qc (insert_desc key x l).
Proof.
  induction 1 as [|y l Hl IH Hy]; cbn.
  - by repeat constructor.
  - case_bool_decide as Hle.
    + constructor; [by constructor|]. constructor; [done|].
      eapply Forall_impl; [exact Hy|]. cbn. intros z Hz. by trans (key y).
    + constructor; [done|]. rewrite insert_desc_perm.
      constructor; [|done]. destruct (total Qcle (key x) (key y)); done.
Qed.

Lemma sorted_desc_sorted {A} (key : A → Qc) (l : list A) :
  StronglySorted (λ x y, key y ≤ key x)%Qc (sorted_desc key l).
Proof.
  induction l as [|x l IH]; [constructor|]. cbn. by apply insert_desc_sorted.
Qed.

Lemma NoDup_of_submseteq {A} (l k : list A) : l ⊆+ k → NoDup k → NoDup l.
Proof.
  intros (k' & Hperm)%submseteq_Permutation Hk. rewrite Hperm in Hk.
  by apply NoDup_app in Hk as [? _].
Qed.

Lemma take_sorted_desc_top {A} (key : A → Qc) (n : nat) (items : list A) :
  top_of key n items (take n (sorted_desc key items)).
Proof.
  pose proof (sorted_desc_perm key items) as Hperm.
  pose proof (sorted_desc_sorted key items) as Hsorted.
  set (l := sorted_desc key items) in *.
  rewrite <- (take_drop n l) in Hsorted, Hperm.
  split; [rewrite length_take; lia|]. split.
  { rewrite length_take. unfold l. by rewrite (Permutation_length
      (sorted_desc_perm key items)). }
  split; [|split].
  - rewrite <- Hperm. by apply submseteq_inserts_r.
  - by apply StronglySorted_app_1_l in Hsorted.
  - exists (drop n l). split; [done|]. intros x y Hx Hy.
    by apply (StronglySorted_app_1_elem_of _ _ _ _ _ Hsorted).
Qed.

(** X16. Each of the three tables of [print_top_artists] is the top [n] of
    its candidates by its metric: at most [n] rows (all of them when there
    are fewer), no artist twice, largest value first, and no candidate left
    out has a larger value than a listed one. The candidates are all the
    artists for revenue and for song count, and only the artists with at
    least 5 songs for hit rate; every row shows an artist of the data with
    its own profile. *)
Theorem print_top_artists_rankings (artist_data : gmap string Profile.t)
    (n : nat) :
  let tables := print_top_artists artist_data n in
  let items := map_to_list artist_data in
  top_of (λ x, Profile.estimated_total_revenue x.2) n items
    (by_revenue tables) ∧
  top_of (λ x, Profile.hit_rate x.2) n
    (filter (λ x, (5 ≤ Profile.total_songs x.2)%nat) items)
    (by_hit_rate tables) ∧
  top_of (λ x, Qc_of_nat (Profile.total_songs x.2)) n items
    (by_songs tables) ∧
  (∀ a p, (a, p) ∈ by_hit_rate tables → (5 ≤ Profile.total_songs p)%nat) ∧
  (∀ a p, (a, p) ∈ by_revenue tables ++ by_hit_rate tables ++ by_songs tables
          → artist_data !! a = Some p) ∧
  NoDup (by_revenue tables).*1 ∧ NoDup (by_hit_rate tables).*1 ∧
  NoDup (by_songs tables).*1.
Proof.
  intros tables items. subst tables. unfold print_top_artists.
  cbn [by_revenue by_hit_rate by_songs]. fold items.
  pose proof (take_sorted_desc_top
                (λ x, Profile.estimated_total_revenue x.2) n items) as Hrev.
  pose proof (take_sorted_desc_top (λ x, Profile.hit_rate x.2) n
                (filter (λ x, (5 ≤ Profile.total_songs x.2)%nat) items))
    as Hhit.
  pose proof (take_sorted_desc_top
                (λ x, Qc_of_nat (Profile.total_songs x.2)) n items) as Hsongs.
  split; [done|]. split; [done|]. split; [done|].
  destruct Hrev as (_ & _ & Hrev & _), Hhit as (_ & _ & Hhit & _),
    Hsongs as (_ & _ & Hsongs & _).
  assert (∀ l, l ⊆+ items → ∀ a p, (a, p) ∈ l → artist_data !! a = Some p)
    as Hitems.
  { intros l Hl a p Hin. apply elem_of_map_to_list.
    by apply (elem_of_submseteq _ _ _ Hin Hl). }
  assert (filter (λ x, (5 ≤ Profile.total_songs x.2)%nat) items ⊆+ items)
    as Hfilter by apply sublist_submseteq, sublist_filter.
  split; [|split].
  - intros a p Hin. apply (elem_of_submseteq _ _ _ Hin) in Hhit.
    by apply list_elem_of_filter in Hhit as [? _].
  - intros a p [Hin|[Hin|Hin]%elem_of_app]%elem_of_app.
    + by apply (Hitems _ Hrev).
    + apply (Hitems _ (transitivity Hhit Hfilter)). done.
    + by apply (Hitems _ Hsongs).
  - assert (∀ l, l ⊆+ items → NoDup l.*1) as Hnd.
    { intros l Hl. apply (NoDup_of_submseteq l.*1 items.*1).
      - by apply fmap_submseteq.
      - apply NoDup_fst_map_to_list. }
    split; [by apply Hnd|]. split; [|by apply Hnd].
    apply Hnd. by trans (filter (λ x, (5 ≤ Profile.total_songs x.2)%nat) items).
Qed.

(** ** [fix_nan_in_json] *)

Lemma append_length (u v : string) :
  String.length (u +:+ v) = (String.length u + String.length v)%nat.
Proof.
  induction u as [|c u IH]; [done|].
  change (String c u +:+ v) with (String c (u +:+ v)).
  cbn [String.length Nat.add]. by rewrite IH.
Qed.

Lemma append_assoc (u v w : string) : (u +:+ v) +:+ w = u +:+ v +:+ w.
Proof.
  induction u as [|c u IH]; [done|].
  change ((String c u +:+ v) +:+ w) with (String c ((u +:+ v) +:+ w)).
  by rewrite IH.
Qed.

Lemma sub_nan_other (c : ascii) (s : string) :
  Ascii.eqb c ":" = false → sub_nan 0 (String c s) = String c (sub_nan 0 s).
Proof. intros H. cbn [sub_nan]. by rewrite H. Qed.



Lemma sub_nan_copy (pre t : string) :
  has_char ":" pre = false → sub_nan 0 (pre +:+ t) = pre +:+ sub_nan 0 t.
Proof.
  induction pre as [|c pre IH]; [done|]. cbn [has_char].
  intros [Hc Hpre]%orb_false_elim.
  change (String c pre +:+ t) with (String c (pre +:+ t)).
  rewrite sub_nan_other by done. by rewrite IH.
Qed.

Lemma sub_nan_skip (u v : string) :
  sub_nan (String.length u) (u +:+ v) = sub_nan 0 v.
Proof. induction u as [|c u IH]; [done|]. exact IH. Qed.

Lemma match_tail_sep (ws : string) (g : ascii) (post : string) :
  all_space ws = true → g = ","%char ∨ g = "}"%char →
  match_tail (ws +:+ String g post) = Some (g, S (String.length ws)).
Proof.
  intros Hws Hg. induction ws as [|c ws IH].
  - by destruct Hg as [->| ->].
  - cbn [all_space] in Hws. apply andb_prop in Hws as [Hc Hws].
    change (String c ws +:+ String g post) with (String c (ws +:+ String g post)).
    cbn [match_tail]. rewrite Hc, (IH Hws). done.
Qed.

Lemma match_nan_space (ws t : string) :
  all_space ws = true →
  match_nan (ws +:+ t) =
  match match_nan t with
  | Some (g, k) => Some (g, (String.length ws + k)%nat)
  | None => None
  end.
Proof.
  intros Hws. induction ws as [|c ws IH].
  - change ("" +:+ t) with t. by destruct (match_nan t) as [[g k]|].
  - cbn [all_space] in Hws. apply andb_prop in Hws as [Hc Hws].
    change (String c ws +:+ t) with (String c (ws +:+ t)).
    cbn [match_nan]. rewrite Hc, (IH Hws).
    by destruct (match_nan t) as [[g k]|].
Qed.

(** X17. A member value NaN followed by a comma or a closing brace is
    replaced by null: when the text before the colon has no colon, the
    white space around NaN is replaced by one blank before null and none
    after it, the comma or brace is kept, and the text after it is fixed
    on its own. *)
Theorem fix_nan_replaces_member (pre ws1 ws2 post : string) (g : ascii) :
  has_char ":" pre = false →
  all_space ws1 = true → all_space ws2 = true →
  g = ","%char ∨ g = "}"%char →
  fix_nan_in_json (pre +:+ ":" +:+ ws1 +:+ "NaN" +:+ ws2 +:+ String g post)
  = pre +:+ ": null" +:+ String g (fix_nan_in_json post).
Proof.
  intros Hpre H1 H2 Hg. unfold fix_nan_in_json.
  rewrite sub_nan_copy by done. f_equal.
  change (":" +:+ ?t) with (String ":" t). cbn [sub_nan].
  change (Ascii.eqb ":" ":") with true. cbv iota.
  rewrite (match_nan_space ws1) by done.
  change (match_nan ("NaN" +:+ ?t)) with
    (match match_tail t with Some (g, k) => Some (g, (3 + k)%nat) | None => None end).
  rewrite match_tail_sep by done.
  f_equal. f_equal.
  rewrite <-(sub_nan_skip (ws1 +:+ "NaN" +:+ ws2 +:+ String g "") post).
  f_equal.
  - rewrite !append_length. cbn. lia.
  - rewrite !append_assoc. done.
Qed.

Lemma fix_nan_replaces_member_witness :
  fix_nan_in_json ("{x" +:+ ":" +:+ " " +:+ "NaN" +:+ "" +:+ String "," " y:NaN }")
  = "{x" +:+ ": null" +:+ String "," (fix_nan_in_json " y:NaN }").
Proof.
  apply (fix_nan_replaces_member "{x" " " "" " y:NaN }" ","); first [reflexivity | by left].
Defined.










Lemma sub_nan_clean (s : string) : search_nan s = false → sub_nan 0 s = s.
Proof.
  induction s as [|c s IH]; [done|]. cbn [search_nan sub_nan].
  intros [Hc Hs]%orb_false_elim.
  destruct (Ascii.eqb c ":").
  - destruct (match_nan s) as [[g k]|]; [done|]. by rewrite IH.
  - by rewrite IH.
Qed.


Lemma strip_prefix_head (a : ascii) (p s : string) :
  is_Some (strip_prefix (String a p) s) → has_char a s = true.
Proof.
  destruct s as [|b s]; cbn [strip_prefix has_char]; [by intros [? ?]|].
  destruct (Ascii.eqb_spec a b) as [->|]; [|by intros [? ?]].
  by rewrite Ascii.eqb_refl.
Qed.

Lemma match_nan_capital (s : string) :
  is_Some (match_nan s) → has_char "N" s = true.
Proof.
  induction s as [|c s IH]; cbn [match_nan has_char]; [by intros [? ?]|].
  destruct (is_space c).
  - destruct (match_nan s) as [[g k]|]; [|by intros [? ?]].
    intros _. rewrite IH by done. by rewrite orb_true_r.
  - destruct (strip_prefix "NaN" (String c s)) as [t|] eqn:Ht; [|by intros [? ?]].
    intros _. by apply (strip_prefix_head "N" "aN" (String c s)).
Qed.

Lemma search_nan_chars (s : string) :
  search_nan s = true → has_char ":" s = true ∧ has_char "N" s = true.
Proof.
  induction s as [|c s IH]; [done|]. cbn [search_nan has_char].
  intros [[Hc Hm%bool_decide_eq_true]%andb_prop|Hs]%orb_prop.
  - rewrite Hc, (match_nan_capital s Hm). by rewrite orb_true_r.
  - destruct (IH Hs) as [-> ->]. by rewrite !orb_true_r.
Qed.

(** X18. A text without a colon, and a text without a capital N, is written
    back unchanged: NaN as an element of a list that is no member value,
    and the tokens Infinity and -Infinity, are left in the file. *)
Theorem fix_nan_unchanged (content : string) :
  has_char ":" content = false ∨ has_char "N" content = false →
  fix_nan_in_json content = content.
Proof.
  intros H. apply sub_nan_clean.
  destruct (search_nan content) eqn:Hs; [|done].
  apply search_nan_chars in Hs as [H1 H2]. destruct H; congruence.
Qed.

Lemma fix_nan_unchanged_witness :
  fix_nan_in_json "[NaN, NaN]" = "[NaN, NaN]"%string.
Proof. apply (fix_nan_unchanged "[NaN, NaN]"). left. reflexivity. Defined.






